(** * discord-weather-bot: settings store, layered caches and presence rotation

    A shallow embedding of the caching and settings-consistency core of the
    bot (src/utils/database.py, src/geocoding.py, src/fetchweather.py,
    src/commands/settings.py, src/commands/weather.py,
    src/commands/presence.py) together with the properties of its
    specification.

    Conventions of the embedding:
    - time is [Z], in whole seconds ([int(time.time())]);
    - the SQL table [server_settings] is a finite map from [guild_id] to
      rows; the [settings] column holds the decoded document, since
      [json.loads (json.dumps d) = d] for the dictionaries stored here;
    - Python dictionaries that are shared between caches and mutated in
      place by [Settings.setup] live in an explicit object heap and are
      passed around as references;
    - every point where the source can fail (storage, executor timeout,
      HTTP provider) takes its outcome from an explicit argument, so each
      function is total and executable;
    - [functools.lru_cache] is a recency-ordered association list. *)

From Stdlib Require Import ZArith String Ascii List Lia DecimalString.
From stdpp Require Import gmap strings list fin_maps.

Local Open Scope Z_scope.

(** ** Python exceptions and outcomes *)

Inductive exn :=
  | OperationalError (msg : string)   (* sqlite3.OperationalError *)
  | OtherException.                   (* any other subclass of Exception *)

Inductive outcome (A : Type) :=
  | Returns (a : A)
  | Raises (e : exn).
Arguments Returns {A} a.
Arguments Raises {A} e.

(** ** [functools.lru_cache]

    The memo is a list of (arguments, result) pairs, most recently used
    first.  A hit moves the pair to the front; a miss stores the new pair in
    front and drops the least recently used one beyond [maxsize]. *)

Section lru_cache.
Context {K V : Type} `{EqDecision K}.

Fixpoint lru_find (k : K) (l : list (K * V)) : option V :=
  match l with
  | [] => None
  | (k', v) :: l' => if decide (k' = k) then Some v else lru_find k l'
  end.

Fixpoint lru_remove (k : K) (l : list (K * V)) : list (K * V) :=
  match l with
  | [] => []
  | (k', v) :: l' => if decide (k' = k) then l' else (k', v) :: lru_remove k l'
  end.

Definition lru_hit (k : K) (v : V) (l : list (K * V)) : list (K * V) :=
  (k, v) :: lru_remove k l.

Definition lru_store (maxsize : nat) (k : K) (v : V) (l : list (K * V)) : list (K * V) :=
  take maxsize ((k, v) :: l).

(** [cache_clear()] *)
Definition cache_clear : list (K * V) := [].
End lru_cache.

(** ** Settings documents and the object heap *)

Record SettingsDict := mkSettings {
  units : string;
  decimal_places : Z;
  forecast_days : Z
}.

Global Instance SettingsDict_eq_dec : EqDecision SettingsDict.
Proof. solve_decision. Defined.

Definition DEFAULT_SETTINGS : SettingsDict :=
  {| units := "metric"; decimal_places := 2; forecast_days := 3 |}.

(** References to dictionary objects; the heap only grows. *)
Definition ref := nat.
Definition heap := list SettingsDict.

(** A new dictionary object ([json.loads], [dict.copy]). *)
Definition new_dict (s : SettingsDict) (h : heap) : ref * heap :=
  (length h, h ++ [s]).

Definition deref (h : heap) (r : ref) : option SettingsDict := h !! r.

(** In-place item assignment [d[key] = value]. *)
Definition setitem (r : ref) (f : SettingsDict → SettingsDict) (h : heap) : heap :=
  alter f r h.

(** ** src/utils/database.py *)

Module DatabaseManager.

Record Row := mkRow {
  settings : SettingsDict;
  last_updated : Z;
  last_accessed : Z
}.

Global Instance Row_eq_dec : EqDecision Row.
Proof. solve_decision. Defined.

Record t := mk {
  table : gmap string Row;        (* server_settings, keyed by guild_id *)
  memo : list (string * ref);     (* lru_cache of get_server_settings *)
  submitted : list string;        (* reads handed to the executor, newest first *)
  slept : list Z                  (* time.sleep calls in milliseconds, newest first *)
}.

Definition maxsize : nat := 2000.

(** [init_database]: drops and recreates the table; an exception is
    logged and leaves the file as it was. *)
Definition init_database (fault : option exn) (disk : gmap string Row) : gmap string Row :=
  match fault with
  | Some _ => disk
  | None => ∅
  end.

(** [__init__] of a new process over the database file [disk]. *)
Definition new (fault : option exn) (disk : gmap string Row) : t :=
  {| table := init_database fault disk; memo := cache_clear;
     submitted := []; slept := [] |}.

(** [_get_server_settings_sync]; [now] is the database clock used by the
    column defaults [strftime('%s','now')]. *)
Definition _get_server_settings_sync (now : Z) (guild_id : string)
    (h : heap) (tbl : gmap string Row) : ref * heap * gmap string Row :=
  match tbl !! guild_id with
  | Some result =>
      let '(r, h') := new_dict (settings result) h in (r, h', tbl)
  | None =>
      let '(r, h') := new_dict DEFAULT_SETTINGS h in
      (r, h', <[guild_id := mkRow DEFAULT_SETTINGS now now]> tbl)
  end.

(** What happens to the job submitted to the executor. *)
Inductive read_outcome :=
  | ReadCompletes     (* the result arrives within one second *)
  | ReadRaises        (* the job raises before writing anything *)
  | ReadTimesOut.     (* [future.result] times out; the job still finishes *)

(** The [try] block of [get_server_settings]: what [future.result] gives
    the caller, and the state the job leaves behind. *)
Definition submit_and_wait (o : read_outcome) (now : Z) (guild_id : string)
    (h : heap) (tbl : gmap string Row) : outcome ref * heap * gmap string Row :=
  match o with
  | ReadCompletes =>
      let '(r, h', tbl') := _get_server_settings_sync now guild_id h tbl in
      (Returns r, h', tbl')
  | ReadRaises => (Raises (OperationalError "database is locked"), h, tbl)
  | ReadTimesOut =>
      let '(_, h', tbl') := _get_server_settings_sync now guild_id h tbl in
      (Raises OtherException, h', tbl')
  end.

(** [get_server_settings], with its [lru_cache]: on a hit the body does not
    run; on a miss the value the body returns, the defaults of the
    [except] branch included, is memoized. *)
Definition get_server_settings (o : read_outcome) (now : Z) (guild_id : string)
    (h : heap) (d : t) : ref * heap * t :=
  match lru_find guild_id (memo d) with
  | Some r =>
      (r, h, {| table := table d; memo := lru_hit guild_id r (memo d);
                submitted := submitted d; slept := slept d |})
  | None =>
      let '(res, h1, tbl') := submit_and_wait o now guild_id h (table d) in
      let '(r, h') :=
        match res with
        | Returns r => (r, h1)
        | Raises _ => new_dict DEFAULT_SETTINGS h1
        end in
      (r, h', {| table := tbl'; memo := lru_store maxsize guild_id r (memo d);
                 submitted := guild_id :: submitted d; slept := slept d |})
  end.

Definition retries : nat := 3.
Definition retry_delay : Z := 100.   (* 0.1 s, in milliseconds *)

(** ["database is locked" in str(e)] *)
Definition is_locked (msg : string) : bool :=
  match String.index 0 "database is locked" msg with
  | Some _ => true
  | None => false
  end.

(** The body of the [try] of one attempt: the upsert, the commit and the
    clearing of the memo. [fault] is what sqlite does at this attempt. *)
Definition attempt_write (fault : option exn) (now : Z) (guild_id : string)
    (s : SettingsDict) (d : t) : outcome t :=
  match fault with
  | Some e => Raises e
  | None =>
      Returns {| table := <[guild_id := mkRow s now now]> (table d);
                 memo := cache_clear;
                 submitted := submitted d; slept := slept d |}
  end.

Definition sleep (ms : Z) (d : t) : t :=
  {| table := table d; memo := memo d; submitted := submitted d;
     slept := ms :: slept d |}.

(** The [for attempt in range(retries)] loop of [set_server_settings];
    [faults attempt] is the behaviour of sqlite at that attempt. *)
Fixpoint set_loop (attempts : list nat) (faults : nat → option exn) (now : Z)
    (guild_id : string) (s : SettingsDict) (d : t) : outcome bool * t :=
  match attempts with
  | [] => (Returns false, d)
  | attempt :: rest =>
      match attempt_write (faults attempt) now guild_id s d with
      | Returns d' => (Returns true, d')
      | Raises (OperationalError msg) =>
          if is_locked msg && bool_decide (attempt < retries - 1)%nat then
            set_loop rest faults now guild_id s
              (sleep (retry_delay * 2 ^ Z.of_nat attempt) d)
          else (Returns false, d)
      | Raises OtherException => (Returns false, d)
      end
  end.

Definition set_server_settings (faults : nat → option exn) (now : Z)
    (guild_id : string) (s : SettingsDict) (d : t) : outcome bool * t :=
  set_loop (seq 0 retries) faults now guild_id s d.

(** The [WHERE] clause of the retention sweep. *)
Definition expired (inactive_cutoff old_cutoff : Z) (row : Row) : Prop :=
  last_accessed row < inactive_cutoff ∨ last_updated row < old_cutoff.

Global Instance expired_dec i o row : Decision (expired i o row).
Proof. unfold expired. apply _. Defined.

(** [cleanup_inactive_servers]; an exception is logged and nothing is
    deleted. *)
Definition cleanup_inactive_servers (fault : option exn) (now : Z)
    (days_inactive days_old : Z) (d : t) : t :=
  let inactive_cutoff := now - days_inactive * 86400 in
  let old_cutoff := now - days_old * 86400 in
  match fault with
  | Some _ => d
  | None =>
      let deleted :=
        filter (λ kv : string * Row, expired inactive_cutoff old_cutoff kv.2) (table d) in
      let kept :=
        filter (λ kv : string * Row, ¬ expired inactive_cutoff old_cutoff kv.2) (table d) in
      {| table := kept;
         memo := if bool_decide (0 < size deleted)%nat then cache_clear else memo d;
         submitted := submitted d; slept := slept d |}
  end.

End DatabaseManager.

(** ** Strings: [str.lower], [int(str)]

    [lower] maps the ASCII capitals and leaves every other byte alone;
    [py_int] accepts what [int] accepts of ASCII text: surrounding white
    space, one sign, decimal digits with single underscores between them. *)

Definition ascii_lower (a : ascii) : ascii :=
  let n := nat_of_ascii a in
  if ((65 <=? n) && (n <=? 90))%nat then ascii_of_nat (n + 32) else a.

Fixpoint lower (s : string) : string :=
  match s with
  | EmptyString => EmptyString
  | String a s' => String (ascii_lower a) (lower s')
  end.

Definition is_space (a : ascii) : bool :=
  let n := nat_of_ascii a in
  ((n =? 32) || ((9 <=? n) && (n <=? 13)))%nat.

Definition is_digit (a : ascii) : bool :=
  let n := nat_of_ascii a in ((48 <=? n) && (n <=? 57))%nat.

Fixpoint lstrip (l : list ascii) : list ascii :=
  match l with
  | a :: l' => if is_space a then lstrip l' else l
  | [] => []
  end.

Definition strip (l : list ascii) : list ascii :=
  rev (lstrip (rev (lstrip l))).

(** Digits, with an underscore allowed only right after a digit and right
    before one. *)
Fixpoint digits_of (after_digit : bool) (l : list ascii) : option (list ascii) :=
  match l with
  | [] => if after_digit then Some [] else None
  | a :: l' =>
      if is_digit a then cons a <$> digits_of true l'
      else if (nat_of_ascii a =? 95)%nat && after_digit
      then match l' with
           | b :: _ => if is_digit b then digits_of false l' else None
           | [] => None
           end
      else None
  end.

Definition py_uint (l : list ascii) : option Z :=
  match digits_of false l with
  | Some ds => Z.of_uint <$> NilEmpty.uint_of_string (string_of_list_ascii ds)
  | None => None
  end.

(** [int(value)]; [None] stands for [ValueError]. *)
Definition py_int (value : string) : option Z :=
  match strip (list_ascii_of_string value) with
  | a :: l =>
      if (nat_of_ascii a =? 43)%nat then py_uint l
      else if (nat_of_ascii a =? 45)%nat then Z.opp <$> py_uint l
      else py_uint (a :: l)
  | [] => None
  end.

(** ** src/geocoding.py and src/fetchweather.py

    The two HTTP services are the outside world: the answer to the n-th
    request sent to a service is given by a function of n and of the
    request; [None] stands for every failure (time-out, status other than
    200, empty or malformed body), which [getcods] and [getweather] turn
    into [None].  Coordinates are opaque to the caches; they are integers
    here (micro-degrees). *)

Record GeoResult := mkGeo {
  name : string;
  lat : Z;
  lon : Z
}.

Record WeatherResult := mkWeather {
  current_temperature : Z;   (* current.temperature, in tenths of a degree *)
  current_time : Z           (* current.time *)
}.

Record World := mkWorld {
  geocoding_api : nat → string → option GeoResult;
  weather_api : nat → Z * Z * Z → option WeatherResult
}.

(** Module-level state of geocoding.py and fetchweather.py: the two
    [lru_cache] memos and the requests sent so far, newest first. *)
Record Providers := mkProviders {
  getcods_memo : list (string * option GeoResult);
  getweather_memo : list (Z * Z * Z * option WeatherResult);
  geocoding_requests : list string;
  weather_requests : list (Z * Z * Z)
}.

Definition no_requests : Providers :=
  {| getcods_memo := cache_clear; getweather_memo := cache_clear;
     geocoding_requests := []; weather_requests := [] |}.

(** [@lru_cache(maxsize=1000) def getcods(city)] *)
Definition getcods (world : World) (city : string) (p : Providers)
    : option GeoResult * Providers :=
  match lru_find city (getcods_memo p) with
  | Some res =>
      (res, {| getcods_memo := lru_hit city res (getcods_memo p);
               getweather_memo := getweather_memo p;
               geocoding_requests := geocoding_requests p;
               weather_requests := weather_requests p |})
  | None =>
      let res := geocoding_api world (length (geocoding_requests p)) city in
      (res, {| getcods_memo := lru_store 1000 city res (getcods_memo p);
               getweather_memo := getweather_memo p;
               geocoding_requests := city :: geocoding_requests p;
               weather_requests := weather_requests p |})
  end.

(** [@lru_cache(maxsize=128) def getweather(lat, lon, forecast_days)] *)
Definition getweather (world : World) (lat lon forecast_days : Z) (p : Providers)
    : option WeatherResult * Providers :=
  let args := (lat, lon, forecast_days) in
  match lru_find args (getweather_memo p) with
  | Some res =>
      (res, {| getcods_memo := getcods_memo p;
               getweather_memo := lru_hit args res (getweather_memo p);
               geocoding_requests := geocoding_requests p;
               weather_requests := weather_requests p |})
  | None =>
      let res := weather_api world (length (weather_requests p)) args in
      (res, {| getcods_memo := getcods_memo p;
               getweather_memo := lru_store 128 args res (getweather_memo p);
               geocoding_requests := geocoding_requests p;
               weather_requests := args :: weather_requests p |})
  end.

(** ** src/commands/settings.py *)

Module Settings.

Record t := mk {
  db : DatabaseManager.t;
  _settings_cache : gmap string (ref * Z)     (* guild_id -> settings, timestamp *)
}.

Definition _cache_ttl : Z := 300.

Definition new (fault : option exn) (disk : gmap string DatabaseManager.Row) : t :=
  {| db := DatabaseManager.new fault disk; _settings_cache := ∅ |}.

(** [Settings.get_server_settings] *)
Definition get_server_settings (o : DatabaseManager.read_outcome) (now : Z)
    (guild_id : string) (h : heap) (c : t) : ref * heap * t :=
  let fresh :=
    let '(settings, h', db') :=
      DatabaseManager.get_server_settings o now guild_id h (db c) in
    (settings, h',
     {| db := db'; _settings_cache := <[guild_id := (settings, now)]> (_settings_cache c) |}) in
  match _settings_cache c !! guild_id with
  | Some (settings, timestamp) =>
      if decide (now - timestamp < _cache_ttl) then (settings, h, c) else fresh
  | None => fresh
  end.

(** What the command answers. *)
Inductive reply :=
  | ServersOnly
  | CurrentValue (current : string + Z)
  | Updated
  | FailedToSave
  | Rejected
  | InvalidFormat
  | ErrorOccurred.

(** The validation of [setup]: the in-place update to make, [inr None] when
    the value is out of range, [inl tt] when [int(value)] raises
    [ValueError]; a setting that is none of the three updates nothing. *)
Definition validate (setting value : string)
    : unit + option (SettingsDict → SettingsDict) :=
  if decide (setting = "units") then
    if decide (lower value = "metric" ∨ lower value = "imperial")
    then inr (Some (λ s, {| units := lower value;
                            decimal_places := decimal_places s;
                            forecast_days := forecast_days s |}))
    else inr None
  else if decide (setting = "decimal_places") then
    match py_int value with
    | None => inl tt
    | Some dp =>
        if decide (0 ≤ dp ≤ 5)
        then inr (Some (λ s, {| units := units s; decimal_places := dp;
                                forecast_days := forecast_days s |}))
        else inr None
    end
  else if decide (setting = "forecast_days") then
    match py_int value with
    | None => inl tt
    | Some days =>
        if decide (1 ≤ days ≤ 5)
        then inr (Some (λ s, {| units := units s;
                                decimal_places := decimal_places s;
                                forecast_days := days |}))
        else inr None
    end
  else inr (Some (λ s, s)).

(** [server_settings[setting]] *)
Definition getitem (setting : string) (s : SettingsDict) : option (string + Z) :=
  if decide (setting = "units") then Some (inl (units s))
  else if decide (setting = "decimal_places") then Some (inr (decimal_places s))
  else if decide (setting = "forecast_days") then Some (inr (forecast_days s))
  else None.

(** [/setup].  [guild] is the id of the server the command comes from, if
    any; [o] and [faults] are the outcomes of the storage read and of the
    attempts of the storage write. *)
Definition setup (o : DatabaseManager.read_outcome) (faults : nat → option exn)
    (now : Z) (guild : option string) (setting : string) (value : option string)
    (h : heap) (c : t) : reply * heap * t :=
  match guild with
  | None => (ServersOnly, h, c)
  | Some guild_id =>
      let cache := delete guild_id (_settings_cache c) in
      let '(server_settings, h1, db1) :=
        DatabaseManager.get_server_settings o now guild_id h (db c) in
      let c1 := {| db := db1; _settings_cache := cache |} in
      match value with
      | None =>
          match deref h1 server_settings ≫= getitem setting with
          | Some current => (CurrentValue current, h1, c1)
          | None => (ErrorOccurred, h1, c1)
          end
      | Some value =>
          match validate setting value with
          | inl tt => (InvalidFormat, h1, c1)
          | inr None => (Rejected, h1, c1)
          | inr (Some update) =>
              let h2 := setitem server_settings update h1 in
              match deref h2 server_settings with
              | Some document =>
                  let '(success, db2) :=
                    DatabaseManager.set_server_settings faults now guild_id document db1 in
                  let c2 := {| db := db2; _settings_cache := cache |} in
                  match success with
                  | Returns true => (Updated, h2, c2)
                  | Returns false => (FailedToSave, h2, c2)
                  | Raises _ => (ErrorOccurred, h2, c2)
                  end
              | None => (ErrorOccurred, h2, c1)
              end
          end
      end
  end.

(** [/reset] *)
Definition reset (faults : nat → option exn) (now : Z) (guild : option string)
    (h : heap) (c : t) : reply * heap * t :=
  match guild with
  | None => (ServersOnly, h, c)
  | Some guild_id =>
      let '(success, db') :=
        DatabaseManager.set_server_settings faults now guild_id DEFAULT_SETTINGS (db c) in
      let c' := {| db := db'; _settings_cache := _settings_cache c |} in
      match success with
      | Returns true => (Updated, h, c')
      | _ => (FailedToSave, h, c')
      end
  end.

End Settings.

(** ** src/commands/weather.py *)

Module Weather.

Record t := mk {
  _settings_cache : gmap string (ref * Z);           (* guild_id -> settings, timestamp *)
  _city_cache : gmap string (GeoResult * Z);         (* city.lower() -> data, timestamp *)
  _weather_cache : gmap (Z * Z * Z) (WeatherResult * Z)
    (* "lat,lon,forecast_days" -> data, timestamp; the key is kept as the
       triple it is formatted from *)
}.

Definition _cache_ttl : Z := 300.

Definition new : t :=
  {| _settings_cache := ∅; _city_cache := ∅; _weather_cache := ∅ |}.

(** [get_guild_settings]; [cog] is [bot.get_cog('Settings')]. *)
Definition get_guild_settings (o : DatabaseManager.read_outcome) (now : Z)
    (guild_id : option string) (h : heap) (cog : option Settings.t) (w : t)
    : ref * heap * option Settings.t * t :=
  let defaults :=
    let '(r, h') := new_dict DEFAULT_SETTINGS h in (r, h', cog, w) in
  match guild_id with
  | None => defaults
  | Some guild_id =>
      if decide (guild_id = "") then defaults
      else
        let fresh :=
          match cog with
          | Some settings_cog =>
              let '(settings, h', settings_cog') :=
                Settings.get_server_settings o now guild_id h settings_cog in
              (settings, h', Some settings_cog',
               {| _settings_cache := <[guild_id := (settings, now)]> (_settings_cache w);
                  _city_cache := _city_cache w;
                  _weather_cache := _weather_cache w |})
          | None => defaults
          end in
        match _settings_cache w !! guild_id with
        | Some (settings, timestamp) =>
            if decide (now - timestamp < 300) then (settings, h, cog, w) else fresh
        | None => fresh
        end
  end.

(** [get_cached_city_info] *)
Definition get_cached_city_info (world : World) (now : Z) (city : string)
    (w : t) (p : Providers) : option GeoResult * t * Providers :=
  let cache_key := lower city in
  let fetch :=
    let '(city_info, p') := getcods world city p in
    match city_info with
    | Some data =>
        (city_info,
         {| _settings_cache := _settings_cache w;
            _city_cache := <[cache_key := (data, now)]> (_city_cache w);
            _weather_cache := _weather_cache w |}, p')
    | None => (None, w, p')
    end in
  match _city_cache w !! cache_key with
  | Some (data, timestamp) =>
      if decide (now - timestamp < _cache_ttl) then (Some data, w, p) else fetch
  | None => fetch
  end.

(** [get_cached_weather] *)
Definition get_cached_weather (world : World) (now : Z) (cache_key : Z * Z * Z)
    (city_info : GeoResult) (forecast_days : Z) (w : t) (p : Providers)
    : option WeatherResult * t * Providers :=
  let fetch :=
    let '(weather_data, p') :=
      getweather world (lat city_info) (lon city_info) forecast_days p in
    match weather_data with
    | Some data =>
        (weather_data,
         {| _settings_cache := _settings_cache w;
            _city_cache := _city_cache w;
            _weather_cache := <[cache_key := (data, now)]> (_weather_cache w) |}, p')
    | None => (None, w, p')
    end in
  match _weather_cache w !! cache_key with
  | Some (data, timestamp) =>
      if decide (now - timestamp < 300) then (Some data, w, p) else fetch
  | None => fetch
  end.

End Weather.

(** ** The running bot *)

Record Bot := mkBot {
  objects : heap;
  providers : Providers;
  settings_cog : option Settings.t;
  weather_cog : Weather.t
}.

(** A process started over the database file [disk], both cogs loaded. *)
Definition start (disk : gmap string DatabaseManager.Row) : Bot :=
  {| objects := []; providers := no_requests;
     settings_cog := Some (Settings.new None disk);
     weather_cog := Weather.new |}.

(** The arguments [create_weather_embed] is called with. *)
Record RenderCall := mkRender {
  render_city_info : GeoResult;
  render_weather_data : WeatherResult;
  render_rnd : Z;
  render_forecast_days : Z;
  render_settings : ref
}.

(** The [/weather] command, up to the call of the renderer; [None] when
    the command answers with a message instead of an embed.  The command
    runs within one second of the clock. *)
Definition weather (world : World) (o : DatabaseManager.read_outcome) (now : Z)
    (guild : option string) (city : string) (days_arg rnd_arg : option Z)
    (b : Bot) : option RenderCall * Bot :=
  let '(settings, h1, cog1, w1) :=
    Weather.get_guild_settings o now guild (objects b) (settings_cog b) (weather_cog b) in
  let b1 := {| objects := h1; providers := providers b;
               settings_cog := cog1; weather_cog := w1 |} in
  match deref h1 settings with
  | None => (None, b1)
  | Some document =>
      let rnd := default (decimal_places document) rnd_arg in
      let forecast_days := default (forecast_days document) days_arg in
      if decide (1 ≤ rnd ≤ 5 ∧ 1 ≤ forecast_days ≤ 5) then
        let '(city_info, w2, p2) :=
          Weather.get_cached_city_info world now city w1 (providers b) in
        match city_info with
        | None =>
            (None, {| objects := h1; providers := p2;
                      settings_cog := cog1; weather_cog := w2 |})
        | Some city_info =>
            let '(weather_data, w3, p3) :=
              Weather.get_cached_weather world now
                (lat city_info, lon city_info, forecast_days)
                city_info forecast_days w2 p2 in
            let b3 := {| objects := h1; providers := p3;
                         settings_cog := cog1; weather_cog := w3 |} in
            match weather_data with
            | None => (None, b3)
            | Some weather_data =>
                (Some {| render_city_info := city_info;
                         render_weather_data := weather_data;
                         render_rnd := rnd;
                         render_forecast_days := forecast_days;
                         render_settings := settings |}, b3)
            end
        end
      else (None, b1)
  end.

(** [/setup] on the running bot. *)
Definition setup (o : DatabaseManager.read_outcome) (faults : nat → option exn)
    (now : Z) (guild : option string) (setting : string) (value : option string)
    (b : Bot) : option Settings.reply * Bot :=
  match settings_cog b with
  | None => (None, b)
  | Some cog =>
      let '(answer, h', cog') :=
        Settings.setup o faults now guild setting value (objects b) cog in
      (Some answer, {| objects := h'; providers := providers b;
                       settings_cog := Some cog'; weather_cog := weather_cog b |})
  end.

(** ** src/commands/presence.py *)

Definition CITIES : list string :=
  ["Tokyo"; "New York"; "London"; "Paris"; "Sydney";
   "Moscow"; "Dubai"; "Singapore"; "Rome"; "Toronto";
   "Berlin"; "Madrid"; "Seoul"; "Mumbai"; "Cairo"; "Montreal";
   "Chicago"]%string.

Module Presence.

Record t := mk {
  _city_cache : gmap string GeoResult;
  _cache_timestamps : gmap string Z;
  _last_cities : list string;        (* deque, oldest first *)
  _available_cities : list string
}.

(** [deque(maxlen=len(cities) // 2)] *)
Definition maxlen (cities : list string) : nat := (length cities / 2)%nat.

Definition new (cities : list string) : t :=
  {| _city_cache := ∅; _cache_timestamps := ∅;
     _last_cities := []; _available_cities := cities |}.

(** [deque.append] on a bounded deque: the oldest element leaves when the
    deque is full; a deque of length 0 stays empty. *)
Definition deque_append (n : nat) (x : string) (dq : list string) : list string :=
  if (n =? 0)%nat then []
  else if (length dq =? n)%nat then drop 1 dq ++ [x]
  else dq ++ [x].

(** [list.remove]: the first occurrence. *)
Fixpoint list_remove (x : string) (l : list string) : list string :=
  match l with
  | [] => []
  | y :: l' => if decide (y = x) then l' else y :: list_remove x l'
  end.

(** The refill of an empty pool. *)
Definition refill (cities : list string) (last available : list string)
    : list string * list string :=
  match available with
  | [] =>
      match filter (λ c, c ∉ last) cities with
      | [] => ([], cities)
      | remaining => (last, remaining)
      end
  | _ => (last, available)
  end.

(** The rotation of one tick: the refill, [random.choice], the removal
    from the pool and the push onto the history. [choice] is the random
    integer drawn; [None] when the pool is empty and [random.choice]
    raises. *)
Definition rotate (cities : list string) (choice : nat)
    (last available : list string) : option string * list string * list string :=
  let '(last1, available1) := refill cities last available in
  match available1 !! (choice mod length available1)%nat with
  | Some city =>
      (Some city, deque_append (maxlen cities) city last1, list_remove city available1)
  | None => (None, last1, available1)
  end.

(** [_get_city_weather]: the expiry of the rotator's own geocoding cache,
    the rotation, and the two lookups.  The outer [None] stands for the
    exception of [random.choice]. *)
Definition _get_city_weather (world : World) (cities : list string) (now : Z)
    (choice : nat) (s : t) (p : Providers)
    : option (option string * option WeatherResult) * t * Providers :=
  let expired :=
    filter (λ kv : string * Z, 86400 < now - kv.2) (_cache_timestamps s) in
  let city_cache := filter (λ kv : string * GeoResult, expired !! kv.1 = None) (_city_cache s) in
  let timestamps := filter (λ kv : string * Z, expired !! kv.1 = None) (_cache_timestamps s) in
  let '(picked, last, available) :=
    rotate cities choice (_last_cities s) (_available_cities s) in
  match picked with
  | None =>
      (None, {| _city_cache := city_cache; _cache_timestamps := timestamps;
                _last_cities := last; _available_cities := available |}, p)
  | Some city =>
      match city_cache !! city with
      | Some city_info =>
          let '(weather, p') := getweather world (lat city_info) (lon city_info) 1 p in
          (Some (Some city, weather),
           {| _city_cache := city_cache; _cache_timestamps := timestamps;
              _last_cities := last; _available_cities := available |}, p')
      | None =>
          let '(city_info, p1) := getcods world city p in
          match city_info with
          | Some info =>
              let '(weather, p2) := getweather world (lat info) (lon info) 1 p1 in
              (Some (Some city, weather),
               {| _city_cache := <[city := info]> city_cache;
                  _cache_timestamps := <[city := now]> timestamps;
                  _last_cities := last; _available_cities := available |}, p2)
          | None =>
              (Some (None, None),
               {| _city_cache := city_cache; _cache_timestamps := timestamps;
                  _last_cities := last; _available_cities := available |}, p1)
          end
      end
  end.

End Presence.

(** ** src/commands/weather.py: weather codes *)

(** [WEATHER_CODE_RANGES], in the insertion order of the dictionary. *)
Definition WEATHER_CODE_RANGES : list (Z * Z * string) :=
  [(0, 1, "☀️"); (1, 4, "🌤️"); (4, 10, "☁️"); (10, 20, "🌫️");
   (20, 30, "🌧️"); (30, 40, "🌧️"); (40, 50, "🌧️"); (50, 60, "❄️");
   (60, 70, "🌨️"); (70, 80, "🌨️"); (80, 90, "🌦️"); (90, 100, "⛈️")]%string.

(** The loop of [get_weather_emoji]: the emoji of the first range that
    holds the code. *)
Fixpoint first_range (ranges : list (Z * Z * string)) (weather_code : Z) : option string :=
  match ranges with
  | [] => None
  | (start, stop, emoji) :: rest =>
      if decide (start ≤ weather_code < stop) then Some emoji
      else first_range rest weather_code
  end.

(** [get_weather_emoji]; its [lru_cache] memoizes a function of the code
    alone and is left out. *)
Definition get_weather_emoji (weather_code : Z) : string :=
  default "❓"%string (first_range WEATHER_CODE_RANGES weather_code).

(** ** The other commands on the running bot *)

(** [/reset] on the running bot. *)
Definition reset (faults : nat → option exn) (now : Z) (guild : option string)
    (b : Bot) : option Settings.reply * Bot :=
  match settings_cog b with
  | None => (None, b)
  | Some cog =>
      let '(answer, h', cog') := Settings.reset faults now guild (objects b) cog in
      (Some answer, {| objects := h'; providers := providers b;
                       settings_cog := Some cog'; weather_cog := weather_cog b |})
  end.

(** One iteration of [WeatherBot.periodic_cleanup] (src/main.py): the sweep
    with its default thresholds, when the settings cog is loaded. *)
Definition periodic_cleanup (fault : option exn) (now : Z) (b : Bot) : Bot :=
  match settings_cog b with
  | None => b
  | Some cog =>
      {| objects := objects b; providers := providers b;
         settings_cog :=
           Some {| Settings.db :=
                     DatabaseManager.cleanup_inactive_servers fault now 30 90
                       (Settings.db cog);
                   Settings._settings_cache := Settings._settings_cache cog |};
         weather_cog := weather_cog b |}
  end.

(* ===================================================================== *)
(** * Executions, invariants and readings of the specification *)
(* ===================================================================== *)

Section store_executions.
Import DatabaseManager.

(** Formal reading of "the operation deletes no stored record". *)
Definition keeps_every_record (op : gmap string Row → gmap string Row) : Prop :=
  ∀ tbl g, is_Some (tbl !! g) → is_Some (op tbl !! g).

(** A server whose settings are only ever read: reads at any times, with any
    outcome. *)
Fixpoint read_repeatedly (reads : list (read_outcome * Z)) (g : string)
    (h : heap) (d : t) : heap * t :=
  match reads with
  | [] => (h, d)
  | (o, now) :: rest =>
      let '(_, h', d') := get_server_settings o now g h d in
      read_repeatedly rest g h' d'
  end.







(** The attempt fails with sqlite's transient "database is locked". *)
Definition lock_contention (fault : option exn) : bool :=
  match fault with
  | Some (OperationalError msg) => is_locked msg
  | _ => false
  end.

(** The delays slept before attempts 1 .. n, newest first. *)
Definition backoff (n : nat) : list Z :=
  rev (map (λ attempt, retry_delay * 2 ^ Z.of_nat attempt) (seq 0 n)).

End store_executions.

Section rotation_executions.
Import Presence.
Variable cities : list string.

(** The cities picked by successive ticks, from a rotation state. *)
Fixpoint picks (choices : list nat) (last available : list string)
    : list (option string) :=
  match choices with
  | [] => []
  | choice :: rest =>
      let '(picked, last', available') := rotate cities choice last available in
      picked :: picks rest last' available'
  end.

(** No repeat in any run of at most [n] consecutive elements. *)
Definition no_repeat_within {A} (n : nat) (l : list A) : Prop :=
  ∀ before run after, l = before ++ run ++ after → (length run ≤ n)%nat → NoDup run.

(** The invariant of the rotation: [hist] is every city picked so far,
    newest first. *)
Definition rotation_inv (hist last available : list string) : Prop :=
  last = reverse (take (maxlen cities) hist) ∧
  NoDup available ∧
  (∀ c, c ∈ available → c ∉ take (maxlen cities) hist).

(** A run of the presence task: the clock and the random draw of each
    tick; the result of [_get_city_weather] at each tick. *)
Fixpoint presence_run (world : World) (ticks : list (Z * nat)) (s : t) (p : Providers)
    : list (option (option string * option WeatherResult)) :=
  match ticks with
  | [] => []
  | (now, choice) :: rest =>
      let '(out, s', p') := _get_city_weather world cities now choice s p in
      out :: presence_run world rest s' p'
  end.

(** The city a tick proposes for the status. *)
Definition shown (out : option (option string * option WeatherResult)) : option string :=
  match out with
  | Some (Some city, _) => Some city
  | _ => None
  end.

(** The tick resolved its city and fetched its weather. *)
Definition succeeded (out : option (option string * option WeatherResult)) : bool :=
  match out with
  | Some (Some _, Some _) => true
  | _ => false
  end.

(** Formal reading of "within every span of N consecutive ticks each city
    of the list is picked at least once". *)
Definition every_span_covers (proposals : list (option string)) : Prop :=
  ∀ start c, (start + length cities ≤ length proposals)%nat → c ∈ cities →
    Some c ∈ take (length cities) (drop start proposals).

End rotation_executions.

(** A world in which both services always answer. *)
Definition always_up : World :=
  {| geocoding_api := λ _ city, Some (mkGeo city 0 0);
     weather_api := λ _ _, Some (mkWeather 215 0) |}.

(** Thirty-five ticks, fifteen minutes apart, each drawing 0. *)
Definition first_of_pool : list (Z * nat) :=
  imap (λ i _, (900 * Z.of_nat i, 0%nat)) (replicate 35 tt).

Definition london : GeoResult := mkGeo "London" 51507400 (-127800).

(** Both services fail the first request they receive and answer every
    later one. *)
Definition recovering : World :=
  {| geocoding_api := λ n _, if decide (n = 0%nat) then None else Some london;
     weather_api := λ n _, if decide (n = 0%nat) then None else Some (mkWeather 215 0) |}.

(** Both services answer every request, each time with a new document. *)
Definition changing : World :=
  {| geocoding_api := λ n _, Some (mkGeo "London" (51507400 + Z.of_nat n) (-127800));
     weather_api := λ n _, Some (mkWeather (215 + Z.of_nat n) (Z.of_nat n)) |}.

(** No entry of the weather cog's settings cache for [g] is fresh at [now]. *)
Definition not_cached (now : Z) (g : string) (w : Weather.t) : Prop :=
  match Weather._settings_cache w !! g with
  | Some (_, timestamp) => ¬ now - timestamp < 300
  | None => True
  end.

(** The three [/setup] commands of the scenario, after a first [/weather]
    of the same server, and the [/weather] that follows them within five
    minutes of the first. *)
Definition scenario_G1 : list (option Settings.reply) * option RenderCall * Bot :=
  let ok : nat → option exn := λ _, None in
  let completes := DatabaseManager.ReadCompletes in
  let '(_, b1) := weather always_up completes 0 (Some "G1") "London" None None (start ∅) in
  let '(a1, b2) := setup completes ok 10 (Some "G1") "forecast_days" (Some "2") b1 in
  let '(a2, b3) := setup completes ok 20 (Some "G1") "decimal_places" (Some "1") b2 in
  let '(a3, b4) := setup completes ok 30 (Some "G1") "units" (Some "imperial") b3 in
  let '(render, b5) := weather always_up completes 40 (Some "G1") "London" None None b4 in
  ([a1; a2; a3], render, b5).

(** ** Executions of the whole store and of the whole bot *)

(** Every operation of the store, with its outcome. *)
Inductive store_op :=
  | StoreGet (o : DatabaseManager.read_outcome) (now : Z) (guild_id : string)
  | StoreSet (faults : nat → option exn) (now : Z) (guild_id : string) (s : SettingsDict)
  | StoreSweep (fault : option exn) (now days_inactive days_old : Z).

Definition apply_store_op (op : store_op) (st : heap * DatabaseManager.t)
    : heap * DatabaseManager.t :=
  match op with
  | StoreGet o now g =>
      let '(_, h', d') := DatabaseManager.get_server_settings o now g st.1 st.2 in (h', d')
  | StoreSet faults now g s =>
      (st.1, (DatabaseManager.set_server_settings faults now g s st.2).2)
  | StoreSweep fault now di do =>
      (st.1, DatabaseManager.cleanup_inactive_servers fault now di do st.2)
  end.

Fixpoint run_store (ops : list store_op) (st : heap * DatabaseManager.t)
    : heap * DatabaseManager.t :=
  match ops with
  | [] => st
  | op :: rest => run_store rest (apply_store_op op st)
  end.

(** The commands and the background sweep, each with the outcomes of the
    storage it touches. *)
Inductive command :=
  | CmdWeather (o : DatabaseManager.read_outcome) (now : Z) (guild : option string)
      (city : string) (days_arg rnd_arg : option Z)
  | CmdSetup (o : DatabaseManager.read_outcome) (faults : nat → option exn) (now : Z)
      (guild : option string) (setting : string) (value : option string)
  | CmdReset (faults : nat → option exn) (now : Z) (guild : option string)
  | CmdCleanup (fault : option exn) (now : Z).

Definition run_command (world : World) (cmd : command) (b : Bot) : Bot :=
  match cmd with
  | CmdWeather o now guild city days_arg rnd_arg =>
      (weather world o now guild city days_arg rnd_arg b).2
  | CmdSetup o faults now guild setting value =>
      (setup o faults now guild setting value b).2
  | CmdReset faults now guild => (reset faults now guild b).2
  | CmdCleanup fault now => periodic_cleanup fault now b
  end.

Fixpoint run_commands (world : World) (cmds : list command) (b : Bot) : Bot :=
  match cmds with
  | [] => b
  | cmd :: rest => run_commands world rest (run_command world cmd b)
  end.

(** The value ranges of a settings document. *)
Definition in_range (s : SettingsDict) : Prop :=
  (units s = "metric" ∨ units s = "imperial") ∧
  0 ≤ decimal_places s ≤ 5 ∧ 1 ≤ forecast_days s ≤ 5.

(** Every dictionary of the process and every stored row is in range. *)
Definition store_in_range (h : heap) (d : DatabaseManager.t) : Prop :=
  (∀ r s, deref h r = Some s → in_range s) ∧
  (∀ g row, DatabaseManager.table d !! g = Some row →
     in_range (DatabaseManager.settings row)).

Definition bot_in_range (b : Bot) : Prop :=
  (∀ r s, deref (objects b) r = Some s → in_range s) ∧
  (∀ cog g row, settings_cog b = Some cog →
     DatabaseManager.table (Settings.db cog) !! g = Some row →
     in_range (DatabaseManager.settings row)).

(** The state a run of the presence task ends in. *)
Fixpoint presence_end (world : World) (cities : list string) (ticks : list (Z * nat))
    (s : Presence.t) (p : Providers) : Presence.t * Providers :=
  match ticks with
  | [] => (s, p)
  | (now, choice) :: rest =>
      let '(_, s', p') := Presence._get_city_weather world cities now choice s p in
      presence_end world cities rest s' p'
  end.

(** Both time stamps of every row are equal. *)
Definition stamps_agree (d : DatabaseManager.t) : Prop :=
  ∀ g row, DatabaseManager.table d !! g = Some row →
    DatabaseManager.last_updated row = DatabaseManager.last_accessed row.

(** The heap and, when the settings cog is loaded, its table are in range. *)
Definition cog_in_range (h : heap) (cog : option Settings.t) : Prop :=
  (∀ r s, deref h r = Some s → in_range s) ∧
  (∀ c g row, cog = Some c →
     DatabaseManager.table (Settings.db c) !! g = Some row →
     in_range (DatabaseManager.settings row)).

(** What the geocoding memo and the request log satisfy while only the
    presence task uses them. *)
Definition geocoded_once (cities : list string) (p : Providers) : Prop :=
  NoDup (geocoding_requests p) ∧
  (∀ c, c ∈ geocoding_requests p → c ∈ (getcods_memo p).*1) ∧
  NoDup (getcods_memo p).*1 ∧
  (∀ c, c ∈ (getcods_memo p).*1 → c ∈ cities).

(* ===================================================================== *)
(** * Properties *)
(* ===================================================================== *)

(** ** The memo *)

Section lru_facts.
Context {K V : Type} `{EqDecision K}.
Implicit Types (l : list (K * V)).


Lemma lru_find_None_not_elem k v l : lru_find k l = None → (k, v) ∉ l.
Proof.
  induction l as [|[k' v'] l IH]; simpl; intros Hf Hin.
  - by apply not_elem_of_nil in Hin.
  - case_decide; [done|].
    apply elem_of_cons in Hin as [Heq|Hin]; [congruence | by apply IH].
Qed.




Lemma lru_find_clear k : lru_find k (@cache_clear K V) = None.
Proof. reflexivity. Qed.
End lru_facts.

(** ** The heap *)

Lemma deref_new_dict s h : deref (new_dict s h).2 (new_dict s h).1 = Some s.
Proof. unfold deref, new_dict. simpl. by apply list_lookup_middle. Qed.

Lemma deref_new_dict_old s h r x :
  deref h r = Some x → deref (new_dict s h).2 r = Some x.
Proof. unfold deref, new_dict. simpl. apply lookup_app_l_Some. Qed.

(** ** The settings store *)

Section store_properties.
Import DatabaseManager.

Lemma sync_table_dom now g h tbl :
  dom tbl ⊆ dom (_get_server_settings_sync now g h tbl).2.
Proof.
  unfold _get_server_settings_sync. destruct (tbl !! g); simpl; [done|].
  rewrite dom_insert_L. set_solver.
Qed.

Lemma sync_existing now g h tbl row :
  tbl !! g = Some row →
  _get_server_settings_sync now g h tbl = (length h, h ++ [settings row], tbl).
Proof. unfold _get_server_settings_sync. by intros ->. Qed.

Lemma get_existing_table o now g h d row :
  table d !! g = Some row → table (get_server_settings o now g h d).2 = table d.
Proof.
  intros Hrow. unfold get_server_settings, submit_and_wait.
  destruct (lru_find g (memo d)); [done|].
  destruct o; simpl; rewrite ?(sync_existing _ _ _ _ _ Hrow); simpl; done.
Qed.

Lemma set_loop_table_dom attempts faults now g s d :
  dom (table d) ⊆ dom (table (set_loop attempts faults now g s d).2).
Proof.
  revert d. induction attempts as [|a rest IH]; intros d; simpl; [set_solver|].
  unfold attempt_write. destruct (faults a) as [[msg|]|]; simpl.
  - destruct (is_locked msg && _); simpl; [|set_solver].
    etrans; [|apply IH]. set_solver.
  - set_solver.
  - rewrite dom_insert_L. set_solver.
Qed.

(** C1, as stated, fails for store initialization: [init_database] drops
    the table, so a stored record does not survive a successful
    initialization. *)
Lemma init_database_drops_records : ¬ keeps_every_record (init_database None).
Proof.
  intros Hkeep.
  destruct (Hkeep {[ "G1" := mkRow DEFAULT_SETTINGS 0 0 ]} "G1") as [row Hrow].
  - by eexists.
  - done.
Qed.

(** C1, amended: neither a read nor a write of the store removes the
    record of any server, whatever the storage does (a write replaces the
    row of its own server and leaves all others as they were); a
    successful initialization removes every record. *)
Theorem only_init_and_sweep_delete :
  (∀ o now g h d,
     dom (table d) ⊆ dom (table (get_server_settings o now g h d).2)) ∧
  (∀ faults now g s d,
     dom (table d) ⊆ dom (table (set_server_settings faults now g s d).2) ∧
     ∀ g', g' ≠ g →
       table (set_server_settings faults now g s d).2 !! g' = table d !! g') ∧
  (∀ disk, init_database None disk = ∅).
Proof.
  split_and!; try done.
  - intros o now g h d. unfold get_server_settings, submit_and_wait.
    destruct (lru_find g (memo d)); [set_solver|].
    pose proof (sync_table_dom now g h (table d)) as Hdom.
    destruct o; destruct (_get_server_settings_sync now g h (table d)) as [[r h'] tbl'];
      simpl in *; set_solver.
  - intros faults now g s d. split; [apply set_loop_table_dom|].
    intros g' Hne. unfold set_server_settings.
    generalize (seq 0 retries). intros attempts. revert d.
    induction attempts as [|a rest IH]; intros d; simpl; [done|].
    unfold attempt_write. destruct (faults a) as [[msg|]|]; simpl.
    + destruct (is_locked msg && _); simpl; [|done].
      by rewrite IH.
    + done.
    + by rewrite lookup_insert_ne.
Qed.

Lemma sweep_lookup now days_inactive days_old d g :
  table (cleanup_inactive_servers None now days_inactive days_old d) !! g =
  match table d !! g with
  | Some row =>
      if decide (expired (now - days_inactive * 86400) (now - days_old * 86400) row)
      then None else Some row
  | None => None
  end.
Proof.
  simpl. rewrite map_lookup_filter.
  destruct (table d !! g) as [row|]; simpl; [|done].
  case_decide; case_guard; simpl in *; done.
Qed.

(** C6: a sweep that reaches the database deletes exactly the rows whose
    [last_accessed] is before the inactivity cutoff or whose [last_updated]
    is before the age cutoff, and leaves every other row as it was; with
    the thresholds 30 and 90 days, of a row last accessed 31 days ago and a
    row last accessed 1 day ago (and updated within 90 days) exactly the
    former is deleted. *)
Theorem sweep_deletes_exactly_expired (now days_inactive days_old : Z) (d : t) :
  (∀ g, table (cleanup_inactive_servers None now days_inactive days_old d) !! g =
        match table d !! g with
        | Some row =>
            if decide (last_accessed row < now - days_inactive * 86400 ∨
                       last_updated row < now - days_old * 86400)
            then None else Some row
        | None => None
        end) ∧
  (∀ g1 g2 s1 s2 lu1 lu2,
     g1 ≠ g2 → now - 90 * 86400 ≤ lu2 →
     table (cleanup_inactive_servers None now 30 90
              {| table := <[g1 := mkRow s1 lu1 (now - 31 * 86400)]>
                            {[ g2 := mkRow s2 lu2 (now - 1 * 86400) ]};
                 memo := memo d; submitted := submitted d; slept := slept d |})
     = {[ g2 := mkRow s2 lu2 (now - 1 * 86400) ]}).
Proof.
  split.
  - intros g. rewrite sweep_lookup. unfold expired. done.
  - intros g1 g2 s1 s2 lu1 lu2 Hne Hlu. apply map_eq. intros g.
    rewrite sweep_lookup. unfold expired. simpl.
    destruct (decide (g = g1)) as [->|Hg1].
    + rewrite lookup_insert_eq, lookup_singleton_ne by done. simpl.
      case_decide; [done|lia].
    + rewrite lookup_insert_ne by done.
      destruct (decide (g = g2)) as [->|Hg2].
      * rewrite !lookup_singleton_eq. simpl. case_decide; [lia|done].
      * rewrite !lookup_singleton_ne by done. done.
Qed.

Lemma sweep_deletes_exactly_expired_witness :
  table (cleanup_inactive_servers None 10000000 30 90
           {| table := <["G1" := mkRow DEFAULT_SETTINGS (10000000 - 31 * 86400)
                                       (10000000 - 31 * 86400)]>
                         {[ "G2" := mkRow DEFAULT_SETTINGS (10000000 - 1 * 86400)
                                          (10000000 - 1 * 86400) ]};
              memo := []; submitted := []; slept := [] |})
  = {[ "G2" := mkRow DEFAULT_SETTINGS (10000000 - 1 * 86400) (10000000 - 1 * 86400) ]}.
Proof.
  apply (proj2 (sweep_deletes_exactly_expired 10000000 30 90
                  {| table := ∅; memo := []; submitted := []; slept := [] |})
           "G1" "G2" DEFAULT_SETTINGS DEFAULT_SETTINGS).
  - done.
  - lia.
Defined.

Lemma read_repeatedly_table reads g h d row :
  table d !! g = Some row → table (read_repeatedly reads g h d).2 = table d.
Proof.
  revert h d. induction reads as [|[o now] rest IH]; intros h d Hrow; simpl; [done|].
  pose proof (get_existing_table o now g h d row Hrow) as Htbl.
  destruct (get_server_settings o now g h d) as [[r h'] d']. simpl in Htbl.
  rewrite IH; [done|]. by rewrite Htbl.
Qed.

(** C10: reading an existing record leaves its row, and so both its
    timestamps, as they were, however often and whenever it is read; a
    write stamps both with the current time; hence a record that is only
    read is deleted by a sweep as soon as its [last_accessed] stamp is
    older than the inactivity threshold. *)
Theorem reads_do_not_refresh_timestamps (reads : list (read_outcome * Z))
    (g : string) (row : Row) (h : heap) (d : t) :
  table d !! g = Some row →
  table (read_repeatedly reads g h d).2 !! g = Some row ∧
  (∀ now s, table (set_server_settings (λ _, None) now g s d).2 !! g
            = Some (mkRow s now now)) ∧
  (∀ now days_inactive days_old,
     last_accessed row < now - days_inactive * 86400 →
     table (cleanup_inactive_servers None now days_inactive days_old
              (read_repeatedly reads g h d).2) !! g = None).
Proof.
  intros Hrow. rewrite (read_repeatedly_table reads g h d row Hrow).
  split_and!; [done| |].
  - intros now s. simpl. apply lookup_insert_eq.
  - intros now di do Hold.
    rewrite sweep_lookup.
    rewrite (read_repeatedly_table reads g h d row Hrow), Hrow.
    case_decide as Hexp; [done|]. exfalso. apply Hexp. by left.
Qed.

Lemma reads_do_not_refresh_timestamps_witness :
  let d := {| table := {[ "G1" := mkRow DEFAULT_SETTINGS 1000 1000 ]};
              memo := []; submitted := []; slept := [] |} in
  let reads := [(ReadCompletes, 2592000); (ReadCompletes, 2593000)] in
  table (read_repeatedly reads "G1" [] d).2 !! "G1"
    = Some (mkRow DEFAULT_SETTINGS 1000 1000) ∧
  table (cleanup_inactive_servers None 2593001 30 90
           (read_repeatedly reads "G1" [] d).2) !! "G1" = None.
Proof.
  intros d reads.
  destruct (reads_do_not_refresh_timestamps reads "G1"
              (mkRow DEFAULT_SETTINGS 1000 1000) [] d) as (H1 & _ & H3).
  - reflexivity.
  - split; [exact H1|]. apply H3. simpl. lia.
Defined.

Lemma set_loop_true_memo attempts faults now g s d d' :
  set_loop attempts faults now g s d = (Returns true, d') → memo d' = [].
Proof.
  revert d. induction attempts as [|a rest IH]; intros d; simpl; [done|].
  unfold attempt_write. destruct (faults a) as [[msg|]|]; simpl.
  - destruct (is_locked msg && _); [apply IH | done].
  - done.
  - by intros [= <-].
Qed.

Lemma set_loop_true_row attempts faults now g s d d' :
  set_loop attempts faults now g s d = (Returns true, d') →
  table d' !! g = Some (mkRow s now now).
Proof.
  revert d. induction attempts as [|a rest IH]; intros d; simpl; [done|].
  unfold attempt_write. destruct (faults a) as [[msg|]|]; simpl.
  - destruct (is_locked msg && _); [apply IH | done].
  - done.
  - intros [= <-]. simpl. apply lookup_insert_eq.
Qed.

(** C9: a successful write empties the whole memo of the store, so the
    next read of any server, also of one whose record was memoized before
    the write, is handed to the executor and returns what the table holds. *)
Theorem set_clears_memo_of_every_server (faults : nat → option exn) (now : Z)
    (g : string) (s : SettingsDict) (d d' : t) :
  set_server_settings faults now g s d = (Returns true, d') →
  memo d' = [] ∧
  ∀ g' o now' h,
    lru_find g' (memo d') = None ∧
    submitted (get_server_settings o now' g' h d').2 = g' :: submitted d' ∧
    ∀ row, table d' !! g' = Some row →
      deref (get_server_settings ReadCompletes now' g' h d').1.2
            (get_server_settings ReadCompletes now' g' h d').1.1
      = Some (settings row).
Proof.
  intros Hset. apply set_loop_true_memo in Hset as Hmemo.
  split; [done|]. intros g' o now' h.
  unfold get_server_settings. rewrite Hmemo. simpl.
  split_and!; [done| |].
  - unfold submit_and_wait.
    destruct o; destruct (_get_server_settings_sync now' g' h (table d')) as [[r h'] tbl'];
      done.
  - intros row Hrow. rewrite (sync_existing _ _ _ _ _ Hrow). simpl.
    apply (deref_new_dict (settings row) h).
Qed.

Lemma set_clears_memo_of_every_server_witness :
  let d := {| table := {[ "G2" := mkRow DEFAULT_SETTINGS 5 5 ]};
              memo := [("G2", 0%nat)]; submitted := []; slept := [] |} in
  let d' := (set_server_settings (λ _, None) 10 "G1"
               (mkSettings "imperial" 1 2) d).2 in
  memo d' = [] ∧
  submitted (get_server_settings ReadCompletes 11 "G2" [DEFAULT_SETTINGS] d').2
    = ["G2"].
Proof.
  intros d d'.
  destruct (set_clears_memo_of_every_server (λ _, None) 10 "G1"
              (mkSettings "imperial" 1 2) d d' eq_refl) as [Hm Hget].
  split; [exact Hm|]. exact (proj1 (proj2 (Hget "G2" ReadCompletes 11 [DEFAULT_SETTINGS]))).
Defined.


Lemma sweep_nothing_deleted (P : string * Row → Prop) `{∀ x, Decision (P x)}
    (tbl : gmap string Row) :
  ¬ (0 < size (filter P tbl))%nat → filter (λ kv, ¬ P kv) tbl = tbl.
Proof.
  intros Hsize. assert (Hempty : filter P tbl = ∅).
  { apply map_size_empty_iff. lia. }
  apply map_eq. intros g. rewrite map_lookup_filter.
  destruct (tbl !! g) as [row|] eqn:Hrow; simpl; [|done].
  case_guard as HP; simpl; [done|]. exfalso.
  assert (filter P tbl !! g = Some row) as Hin.
  { apply map_lookup_filter_Some. done. }
  rewrite Hempty in Hin. done.
Qed.








Lemma set_loop_step a rest faults now g s d :
  set_loop (a :: rest) faults now g s d =
  match faults a with
  | None =>
      (Returns true,
       {| table := <[g := mkRow s now now]> (table d); memo := [];
          submitted := submitted d; slept := slept d |})
  | Some _ =>
      if lock_contention (faults a) && bool_decide (a < retries - 1)%nat
      then set_loop rest faults now g s (sleep (retry_delay * 2 ^ Z.of_nat a) d)
      else (Returns false, d)
  end.
Proof.
  simpl. unfold attempt_write. destruct (faults a) as [[msg|]|]; done.
Qed.

(** C7: a write makes at most three attempts.  While sqlite reports lock
    contention it sleeps 100 ms times 2 to the number of the attempt and
    tries again, so it retries at most twice (100 ms, then 200 ms); when the
    third attempt meets contention too, or when any attempt fails with
    another error, it returns [False]; in every case it returns a boolean
    and raises nothing, and what sqlite would do at a fourth attempt is
    never asked. *)
Theorem set_retries_with_backoff_and_never_raises (faults : nat → option exn)
    (now : Z) (g : string) (s : SettingsDict) (d : t) :
  let res := set_server_settings faults now g s d in
  (∃ b, res.1 = Returns b) ∧
  (∃ n, (n ≤ 2)%nat ∧ slept res.2 = backoff n ++ slept d) ∧
  (lock_contention (faults 0%nat) = true →
   lock_contention (faults 1%nat) = true →
   lock_contention (faults 2%nat) = true →
   res = (Returns false, sleep 200 (sleep 100 d))) ∧
  (∀ k, (k < 3)%nat →
     (∀ j, (j < k)%nat → lock_contention (faults j) = true) →
     is_Some (faults k) → lock_contention (faults k) = false →
     res.1 = Returns false) ∧
  (∀ k, (k < 3)%nat →
     (∀ j, (j < k)%nat → lock_contention (faults j) = true) →
     faults k = None →
     res.1 = Returns true ∧ slept res.2 = backoff k ++ slept d ∧
     table res.2 !! g = Some (mkRow s now now)) ∧
  (∀ faults', (∀ k, (k < 3)%nat → faults' k = faults k) →
     set_server_settings faults' now g s d = res).
Proof.
  intros res. subst res. unfold set_server_settings.
  change (seq 0 retries) with [0; 1; 2]%nat.
  rewrite !set_loop_step.
  change (bool_decide (0 < retries - 1)%nat) with true.
  change (bool_decide (1 < retries - 1)%nat) with true.
  change (bool_decide (2 < retries - 1)%nat) with false.
  rewrite !andb_true_r, !andb_false_r.
  split_and!.
  - destruct (faults 0%nat) as [e0|]; [|by eexists].
    destruct (lock_contention (Some e0)); [|by eexists].
    destruct (faults 1%nat) as [e1|]; [|by eexists].
    destruct (lock_contention (Some e1)); [|by eexists].
    destruct (faults 2%nat) as [e2|]; by eexists.
  - destruct (faults 0%nat) as [e0|]; [|exists 0%nat; split; [lia|reflexivity]].
    destruct (lock_contention (Some e0)); [|exists 0%nat; split; [lia|reflexivity]].
    destruct (faults 1%nat) as [e1|]; [|exists 1%nat; split; [lia|reflexivity]].
    destruct (lock_contention (Some e1)); [|exists 1%nat; split; [lia|reflexivity]].
    destruct (faults 2%nat) as [e2|]; exists 2%nat; (split; [lia|reflexivity]).
  - intros H0 H1 H2.
    destruct (faults 0%nat) as [e0|]; [|done]. rewrite H0.
    destruct (faults 1%nat) as [e1|]; [|done]. rewrite H1.
    destruct (faults 2%nat) as [e2|]; done.
  - intros k Hk Hbefore [e He] Hhard.
    destruct k as [|[|[|k]]]; [| | |lia].
    + rewrite He in Hhard |- *. rewrite Hhard. done.
    + pose proof (Hbefore 0%nat ltac:(lia)) as H0.
      destruct (faults 0%nat) as [e0|]; [|done]. rewrite H0.
      rewrite He in Hhard |- *. rewrite Hhard. done.
    + pose proof (Hbefore 0%nat ltac:(lia)) as H0.
      pose proof (Hbefore 1%nat ltac:(lia)) as H1.
      destruct (faults 0%nat) as [e0|]; [|done]. rewrite H0.
      destruct (faults 1%nat) as [e1|]; [|done]. rewrite H1, He. done.
  - intros k Hk Hbefore Hok.
    destruct k as [|[|[|k]]]; [| | |lia].
    + rewrite Hok. simpl. by rewrite lookup_insert_eq.
    + pose proof (Hbefore 0%nat ltac:(lia)) as H0.
      destruct (faults 0%nat) as [e0|]; [|done]. rewrite H0, Hok. simpl.
      by rewrite lookup_insert_eq.
    + pose proof (Hbefore 0%nat ltac:(lia)) as H0.
      pose proof (Hbefore 1%nat ltac:(lia)) as H1.
      destruct (faults 0%nat) as [e0|]; [|done]. rewrite H0.
      destruct (faults 1%nat) as [e1|]; [|done]. rewrite H1, Hok. simpl.
      by rewrite lookup_insert_eq.
  - intros faults' Hsame.
    rewrite !set_loop_step.
    change (bool_decide (0 < retries - 1)%nat) with true.
    change (bool_decide (1 < retries - 1)%nat) with true.
    change (bool_decide (2 < retries - 1)%nat) with false.
    rewrite !andb_true_r, !andb_false_r.
    rewrite !Hsame by lia. done.
Qed.

Lemma set_retries_with_backoff_and_never_raises_witness :
  let busy : option exn := Some (OperationalError "database is locked") in
  let d := DatabaseManager.new None ∅ in
  set_server_settings (λ _, busy) 50 "G1" DEFAULT_SETTINGS d
    = (Returns false, sleep 200 (sleep 100 d)) ∧
  (set_server_settings (λ k, if decide (k = 2%nat) then None else busy)
     50 "G1" DEFAULT_SETTINGS d).1 = Returns true ∧
  (set_server_settings (λ _, Some OtherException) 50 "G1" DEFAULT_SETTINGS d).1
    = Returns false.
Proof.
  intros busy d. split_and!.
  - apply (set_retries_with_backoff_and_never_raises (λ _, busy) 50 "G1"
             DEFAULT_SETTINGS d); reflexivity.
  - apply (proj1 (proj2 (proj2 (proj2 (proj2
             (set_retries_with_backoff_and_never_raises
                (λ k, if decide (k = 2%nat) then None else busy)
                50 "G1" DEFAULT_SETTINGS d))))) 2%nat).
    + lia.
    + intros j Hj. destruct j as [|[|j]]; [reflexivity|reflexivity|lia].
    + reflexivity.
  - apply (proj1 (proj2 (proj2 (proj2
             (set_retries_with_backoff_and_never_raises
                (λ _, Some OtherException) 50 "G1" DEFAULT_SETTINGS d)))) 0%nat).
    + lia.
    + intros j Hj. lia.
    + by eexists.
    + reflexivity.
Defined.

End store_properties.
(** ** The presence rotation *)

Section rotation.
Import Presence.
Variable cities : list string.
Hypothesis cities_nodup : NoDup cities.
Hypothesis cities_nonempty : cities ≠ [].

Lemma no_repeat_within_nil {A} n : no_repeat_within n (@nil A).
Proof.
  intros before run after Heq _.
  symmetry in Heq. apply app_eq_nil in Heq as [_ Heq].
  apply app_eq_nil in Heq as [-> _]. constructor.
Qed.

Lemma no_repeat_within_cons {A} n (x : A) l :
  x ∉ take n l → no_repeat_within (S n) l → no_repeat_within (S n) (x :: l).
Proof.
  intros Hx Hl before run after Heq Hlen.
  destruct before as [|y before]; simpl in Heq.
  - destruct run as [|y run]; [constructor|].
    simpl in Heq. injection Heq as <- Hl'. simpl in Hlen.
    apply NoDup_cons. split.
    + intros Hin. apply Hx. rewrite Hl'.
      rewrite take_app_ge by lia. apply elem_of_app. by left.
    + apply (Hl [] run after); [done|lia].
  - injection Heq as <- Hl'. by apply (Hl before run after).
Qed.

Lemma no_repeat_within_reverse {A} n (l : list A) :
  no_repeat_within n l → no_repeat_within n (reverse l).
Proof.
  intros Hl before run after Heq Hlen.
  apply (f_equal reverse) in Heq. rewrite reverse_involutive in Heq.
  rewrite !reverse_app in Heq. rewrite <- (assoc_L (++)) in Heq.
  rewrite <- (reverse_Permutation run).
  apply (Hl _ _ _ Heq). by rewrite length_reverse.
Qed.

Lemma no_repeat_within_fmap_Some {A} n (l : list A) :
  no_repeat_within n l → no_repeat_within n (Some <$> l).
Proof.
  intros Hl before run after Heq Hlen.
  apply fmap_app_inv in Heq as (before' & rest & -> & Hrest & ->).
  symmetry in Hrest.
  apply fmap_app_inv in Hrest as (run' & after' & -> & -> & ->).
  apply (NoDup_fmap_2 _). apply (Hl before' run' after'); [done|].
  by rewrite length_fmap in Hlen.
Qed.

Lemma list_remove_subseteq x l : list_remove x l ⊆ l.
Proof.
  induction l as [|y l IH]; simpl; [done|].
  case_decide; intros z Hz; [by right|].
  apply elem_of_cons in Hz as [->|Hz]; [left | right; by apply IH].
Qed.

Lemma list_remove_NoDup x l : NoDup l → NoDup (list_remove x l) ∧ x ∉ list_remove x l.
Proof.
  induction 1 as [|y l Hy Hl IH]; simpl.
  - split; [constructor | apply not_elem_of_nil].
  - case_decide as Heq; [subst; done|]. destruct IH as [IH1 IH2]. split.
    + apply NoDup_cons. split; [|done].
      intros Hin. by apply Hy, (list_remove_subseteq x l).
    + intros Hin. apply elem_of_cons in Hin as [->|Hin]; done.
Qed.

Lemma list_remove_Permutation x l : x ∈ l → l ≡ₚ x :: list_remove x l.
Proof.
  induction l as [|y l IH]; intros Hin; [by apply elem_of_nil in Hin|].
  simpl. case_decide as Heq; [by subst|].
  apply elem_of_cons in Hin as [->|Hin]; [done|].
  rewrite (IH Hin) at 1. apply Permutation_swap.
Qed.

Lemma maxlen_lt : (maxlen cities < length cities)%nat.
Proof.
  unfold maxlen. apply Nat.div_lt; [|lia].
  destruct cities; [done | simpl; lia].
Qed.

Lemma deque_append_recent x hist :
  deque_append (maxlen cities) x (reverse (take (maxlen cities) hist))
  = reverse (take (maxlen cities) (x :: hist)).
Proof.
  unfold deque_append. generalize (maxlen cities). intros n.
  destruct n as [|n]; [done|]. simpl Nat.eqb. cbv iota.
  rewrite length_reverse, length_take. simpl take. rewrite reverse_cons.
  destruct (Nat.eqb_spec (S n `min` length hist) (S n)) as [Hfull|Hshort].
  - f_equal. assert (is_Some (hist !! n)) as [y Hy] by (apply lookup_lt_is_Some; lia).
    rewrite (take_S_r _ _ _ Hy), reverse_snoc. done.
  - f_equal. rewrite !take_ge by lia. done.
Qed.

Lemma refill_inv hist last available :
  rotation_inv cities hist last available →
  let '(last1, available1) := refill cities last available in
  rotation_inv cities hist last1 available1 ∧ available1 ≠ [].
Proof.
  intros (Hlast & Hnd & Hfresh). unfold refill.
  destruct available as [|a available]; [|done].
  destruct (filter (λ c, c ∉ last) cities) as [|c remaining] eqn:Hfilter.
  - exfalso. assert (cities ⊆+ last) as Hsub.
    { apply NoDup_submseteq; [done|]. intros c Hc.
      destruct (decide (c ∈ last)) as [|Hn]; [done|].
      assert (c ∈ filter (λ c, c ∉ last) cities) as Hin by (by apply list_elem_of_filter).
      rewrite Hfilter in Hin. by apply elem_of_nil in Hin. }
    apply submseteq_length in Hsub.
    rewrite Hlast, length_reverse, length_take in Hsub.
    pose proof maxlen_lt. lia.
  - rewrite <- Hfilter. split; [|by rewrite Hfilter].
    split_and!; [done| by apply NoDup_filter |].
    intros x Hx. apply list_elem_of_filter in Hx as [Hx _].
    rewrite Hlast in Hx. by rewrite elem_of_reverse in Hx.
Qed.

Lemma rotate_inv choice hist last available :
  rotation_inv cities hist last available →
  ∃ city last' available',
    rotate cities choice last available = (Some city, last', available') ∧
    (city ∉ take (maxlen cities) hist) ∧
    rotation_inv cities (city :: hist) last' available'.
Proof.
  intros Hinv. unfold rotate.
  pose proof (refill_inv _ _ _ Hinv) as Hre.
  destruct (refill cities last available) as [last1 available1].
  destruct Hre as [(Hlast & Hnd & Hfresh) Hne].
  assert (is_Some (available1 !! (choice mod length available1)%nat)) as [city Hcity].
  { apply lookup_lt_is_Some. apply Nat.mod_upper_bound.
    destruct available1; [done | simpl; lia]. }
  rewrite Hcity. eexists city, _, _. split; [done|].
  assert (city ∈ available1) as Hin by (by eapply list_elem_of_lookup_2).
  split; [by apply Hfresh|].
  split_and!.
  - rewrite Hlast. apply deque_append_recent.
  - by apply list_remove_NoDup.
  - intros c Hc Htake.
    destruct (maxlen cities) as [|n]; [by apply elem_of_nil in Htake|].
    simpl in Htake. apply elem_of_cons in Htake as [->|Htake].
    + by apply (list_remove_NoDup city available1) in Hc.
    + apply (Hfresh c); [by apply (list_remove_subseteq city)|].
      apply elem_of_take in Htake as (i & Hi & Hlt).
      apply elem_of_take. exists i. split; [done|lia].
Qed.

Lemma picks_spaced choices hist last available :
  rotation_inv cities hist last available →
  no_repeat_within (S (maxlen cities)) hist →
  ∃ new, picks cities choices last available = Some <$> reverse new ∧
         no_repeat_within (S (maxlen cities)) (new ++ hist).
Proof.
  revert hist last available.
  induction choices as [|choice rest IH]; intros hist last available Hinv Hhist.
  - exists []. done.
  - destruct (rotate_inv choice _ _ _ Hinv) as (city & last' & available' & Hrot & Hcity & Hinv').
    simpl. rewrite Hrot.
    destruct (IH (city :: hist) last' available' Hinv') as (new & Hpicks & Hnew).
    { by apply no_repeat_within_cons. }
    exists (new ++ [city]). split.
    + rewrite Hpicks, reverse_snoc. done.
    + by rewrite <- (assoc_L (++)).
Qed.

Lemma picks_take n choices last available :
  take n (picks cities choices last available) = picks cities (take n choices) last available.
Proof.
  revert n last available. induction choices as [|choice rest IH];
    intros n last available; [by destruct n|].
  destruct n as [|n]; [done|]. simpl.
  destruct (rotate cities choice last available) as [[picked last'] available'].
  simpl. by rewrite IH.
Qed.

Lemma picks_first_cycle choices last available :
  length choices = length available →
  picks cities choices last available ≡ₚ Some <$> available.
Proof.
  revert last available. induction choices as [|choice rest IH];
    intros last available Hlen.
  - destruct available; done.
  - destruct available as [|a available]; [done|].
    simpl picks. unfold rotate. simpl refill.
    assert (is_Some ((a :: available) !! (choice mod length (a :: available))%nat))
      as [city Hcity].
    { apply lookup_lt_is_Some. apply Nat.mod_upper_bound. simpl; lia. }
    rewrite Hcity.
    assert (city ∈ a :: available) as Hin by (by eapply list_elem_of_lookup_2).
    pose proof (list_remove_Permutation city _ Hin) as Hperm.
    rewrite IH.
    + rewrite Hperm at 2. done.
    + apply Permutation_length in Hperm. simpl in *. lia.
Qed.

Lemma rotation_from_start (choices : list nat) :
  let shown := picks cities choices [] cities in
  (∀ p, p ∈ shown → is_Some p) ∧
  no_repeat_within (maxlen cities) shown ∧
  ((length cities ≤ length choices)%nat →
   take (length cities) shown ≡ₚ Some <$> cities).
Proof.
  intros shown. subst shown.
  destruct (picks_spaced choices [] [] cities) as (new & Hpicks & Hnew).
  { split_and!; [by rewrite take_nil | done | ].
    intros c _. rewrite take_nil. apply not_elem_of_nil. }
  { apply no_repeat_within_nil. }
  rewrite app_nil_r in Hnew. split_and!.
  - rewrite Hpicks. intros p Hp. apply list_elem_of_fmap in Hp as (c & -> & _). by eexists.
  - rewrite Hpicks. apply no_repeat_within_fmap_Some, no_repeat_within_reverse.
    intros before run after Heq Hlen. apply (Hnew before run after Heq). lia.
  - intros Hlen. rewrite picks_take. apply picks_first_cycle.
    rewrite length_take. lia.
Qed.

Lemma get_city_weather_rotates world now choice s p :
  let '(out, s', p') := _get_city_weather world cities now choice s p in
  let '(picked, last, available) :=
    rotate cities choice (_last_cities s) (_available_cities s) in
  _last_cities s' = last ∧ _available_cities s' = available ∧
  (succeeded out = true → shown out = picked).
Proof.
  unfold _get_city_weather.
  destruct (rotate cities choice (_last_cities s) (_available_cities s))
    as [[picked last] available].
  destruct picked as [city|]; [|done].
  destruct (_ !! city) as [info|].
  - destruct (getweather world (lat info) (lon info) 1 p) as [weather p']. done.
  - destruct (getcods world city p) as [[info|] p1]; [|done].
    destruct (getweather world (lat info) (lon info) 1 p1) as [weather p2]. done.
Qed.

Lemma presence_run_picks world ticks s p :
  forallb succeeded (presence_run cities world ticks s p) = true →
  shown <$> presence_run cities world ticks s p
  = picks cities (ticks.*2) (_last_cities s) (_available_cities s).
Proof.
  revert s p. induction ticks as [|[now choice] rest IH]; intros s p Hok; [done|].
  simpl in *. pose proof (get_city_weather_rotates world now choice s p) as Hrot.
  destruct (_get_city_weather world cities now choice s p) as [[out s'] p'].
  destruct (rotate cities choice (_last_cities s) (_available_cities s))
    as [[picked last] available].
  destruct Hrot as (<- & <- & Hshown). simpl in Hok.
  apply andb_true_iff in Hok as [Hout Hrest].
  rewrite fmap_cons, (Hshown Hout), (IH _ _ Hrest). done.
Qed.

(** C8, amended: on a duplicate-free, non-empty city list of size N with
    history capacity N/2, in every execution in which each tick resolves
    its city and fetches its weather, whatever the random draws, no run of
    at most N/2 consecutive ticks proposes a city twice, and the first N
    ticks propose every city of the list exactly once. *)
Theorem rotation_spaces_repeats_and_first_cycle_covers (world : World)
    (ticks : list (Z * nat)) (p : Providers) :
  let outs := presence_run cities world ticks (new cities) p in
  forallb succeeded outs = true →
  no_repeat_within (maxlen cities) (shown <$> outs) ∧
  ((length cities ≤ length ticks)%nat →
   take (length cities) (shown <$> outs) ≡ₚ Some <$> cities).
Proof.
  intros outs Hok. subst outs. rewrite (presence_run_picks _ _ _ _ Hok). simpl.
  destruct (rotation_from_start (ticks.*2)) as (_ & Hwin & Hcycle).
  split; [done|]. intros Hlen. apply Hcycle. by rewrite length_fmap.
Qed.

End rotation.

(** C8, as stated, fails in its second half: in this failure-free run
    over the seventeen cities the span of ticks 18 to 34 never proposes
    Chicago, which is proposed at ticks 17 and 35. *)
Lemma span_of_N_ticks_misses_a_city :
  let outs := presence_run CITIES always_up first_of_pool
                (Presence.new CITIES) no_requests in
  forallb succeeded outs = true ∧
  ¬ every_span_covers CITIES (shown <$> outs).
Proof.
  split; [by vm_compute|].
  intros Hall. pose proof (Hall 17%nat "Chicago") as Hin.
  set (window := take _ _) in Hin.
  assert (Hnot : bool_decide (Some "Chicago" ∈ window) = false) by (by vm_compute).
  apply bool_decide_eq_false in Hnot. apply Hnot, Hin.
  - vm_compute. lia.
  - apply (bool_decide_unpack _). by vm_compute.
Qed.

Lemma rotation_spaces_repeats_and_first_cycle_covers_witness :
  let outs := presence_run CITIES always_up first_of_pool
                (Presence.new CITIES) no_requests in
  NoDup CITIES ∧ CITIES ≠ [] ∧ forallb succeeded outs = true ∧
  no_repeat_within 8 (shown <$> outs) ∧
  take 17 (shown <$> outs) ≡ₚ Some <$> CITIES.
Proof.
  intros outs.
  assert (Hnd : NoDup CITIES) by (apply (bool_decide_unpack _); by vm_compute).
  assert (Hne : CITIES ≠ []) by done.
  assert (Hok : forallb succeeded outs = true) by (by vm_compute).
  split_and!; [done..| |].
  - apply (rotation_spaces_repeats_and_first_cycle_covers CITIES Hnd Hne
             always_up first_of_pool no_requests Hok).
  - apply (rotation_spaces_repeats_and_first_cycle_covers CITIES Hnd Hne
             always_up first_of_pool no_requests Hok). vm_compute. lia.
Defined.

(** ** The geocoding and weather caches *)

(** [getcods] memoizes whatever it returns, [None] included: a second call
    with the same city sends no request, whatever the service would answer
    by then. *)
Lemma getcods_memoizes world world' city p :
  let '(res, p1) := getcods world city p in
  getcods world' city p1 =
    (res, {| getcods_memo := lru_hit city res (getcods_memo p1);
             getweather_memo := getweather_memo p1;
             geocoding_requests := geocoding_requests p1;
             weather_requests := weather_requests p1 |}).
Proof.
  unfold getcods. destruct (lru_find city (getcods_memo p)) as [res|] eqn:Hfind; simpl.
  - by rewrite decide_True.
  - by rewrite decide_True.
Qed.

(** A [None] from the provider never enters the time-stamped cache of the
    weather cog. *)
Lemma null_not_stored_in_city_cache world now city w p :
  (Weather.get_cached_city_info world now city w p).1.1 = None →
  (Weather.get_cached_city_info world now city w p).1.2 = w.
Proof.
  unfold Weather.get_cached_city_info.
  destruct (Weather._city_cache w !! lower city) as [[data timestamp]|].
  - case_decide; [done|].
    destruct (getcods world city p) as [[data'|] p']; done.
  - destruct (getcods world city p) as [[data'|] p']; done.
Qed.

Lemma getweather_memoizes world world' lat lon days p :
  let '(res, p1) := getweather world lat lon days p in
  getweather world' lat lon days p1 =
    (res, {| getcods_memo := getcods_memo p1;
             getweather_memo := lru_hit (lat, lon, days) res (getweather_memo p1);
             geocoding_requests := geocoding_requests p1;
             weather_requests := weather_requests p1 |}).
Proof.
  unfold getweather.
  destruct (lru_find (lat, lon, days) (getweather_memo p)) as [res|] eqn:Hfind; simpl.
  - by rewrite decide_True.
  - by rewrite decide_True.
Qed.

Lemma null_not_stored_in_weather_cache world now key info days w p :
  (Weather.get_cached_weather world now key info days w p).1.1 = None →
  (Weather.get_cached_weather world now key info days w p).1.2 = w.
Proof.
  unfold Weather.get_cached_weather.
  destruct (Weather._weather_cache w !! key) as [[data timestamp]|].
  - case_decide; [done|].
    destruct (getweather world (lat info) (lon info) days p) as [[data'|] p']; done.
  - destruct (getweather world (lat info) (lon info) days p) as [[data'|] p']; done.
Qed.

(** A value the lookup returns is in the time-stamped cache afterwards,
    with an age below the TTL. *)
Lemma returned_weather_is_cached world now key info days w p data :
  (Weather.get_cached_weather world now key info days w p).1.1 = Some data →
  ∃ timestamp,
    Weather._weather_cache (Weather.get_cached_weather world now key info days w p).1.2
      !! key = Some (data, timestamp) ∧
    now - timestamp < 300.
Proof.
  unfold Weather.get_cached_weather.
  destruct (Weather._weather_cache w !! key) as [[data0 timestamp]|] eqn:Hc.
  - case_decide as Hage.
    + intros [= ->]. by exists timestamp.
    + destruct (getweather world (lat info) (lon info) days p) as [[data'|] p'];
        [|done]. intros [= ->]. exists now. simpl.
      rewrite lookup_insert_eq. split; [done|lia].
  - destruct (getweather world (lat info) (lon info) days p) as [[data'|] p'];
      [|done]. intros [= ->]. exists now. simpl.
    rewrite lookup_insert_eq. split; [done|lia].
Qed.

(** Within the TTL the stored value is returned and nothing else happens. *)
Lemma fresh_entry_is_returned world now city w p data timestamp :
  Weather._city_cache w !! lower city = Some (data, timestamp) →
  now - timestamp < Weather._cache_ttl →
  Weather.get_cached_city_info world now city w p = (Some data, w, p).
Proof.
  intros Hc Hage. unfold Weather.get_cached_city_info. rewrite Hc.
  by rewrite decide_True.
Qed.

Lemma fresh_weather_is_returned world now key info days w p data timestamp :
  Weather._weather_cache w !! key = Some (data, timestamp) →
  now - timestamp < 300 →
  Weather.get_cached_weather world now key info days w p = (Some data, w, p).
Proof.
  intros Hc Hage. unfold Weather.get_cached_weather. rewrite Hc.
  by rewrite decide_True.
Qed.

(** C2 on the code: the first lookup of "London" meets a failing service
    and returns [None], and nothing enters the time-stamped cache; the
    lookup one minute later returns [None] again without any request being
    sent, although the service would now answer: [getcods] has memoized
    the [None].  The same happens to the weather lookup through
    [getweather]. *)
Theorem null_result_is_memoized :
  let '(r1, w1, p1) := Weather.get_cached_city_info recovering 0 "London" Weather.new no_requests in
  let '(r2, w2, p2) := Weather.get_cached_city_info recovering 60 "London" w1 p1 in
  let '(r3, w3, p3) := Weather.get_cached_weather recovering 0 (51507400, -127800, 3) london 3 w2 p2 in
  let '(r4, w4, p4) := Weather.get_cached_weather recovering 60 (51507400, -127800, 3) london 3 w3 p3 in
  (r1 = None ∧ Weather._city_cache w1 = ∅ ∧
   r2 = None ∧ geocoding_requests p2 = ["London"] ∧
   geocoding_api recovering (length (geocoding_requests p2)) "London" = Some london) ∧
  (r3 = None ∧ Weather._weather_cache w3 = ∅ ∧
   r4 = None ∧ weather_requests p4 = [(51507400, -127800, 3)] ∧
   weather_api recovering (length (weather_requests p4)) (51507400, -127800, 3)
   = Some (mkWeather 215 0)).
Proof. vm_compute. done. Qed.

(** C4 on the code: a value fetched at time 0 is returned unchanged at age
    299; at age 300 the entry is stale, but the lookup is answered by the
    memo of [getweather] (of [getcods]) with the value of time 0, no
    request is sent, and the new document of the service is not seen. *)
Theorem stale_entry_is_refilled_from_memo :
  let key := (51507400, -127800, 3) in
  let '(r1, w1, p1) := Weather.get_cached_weather changing 0 key london 3 Weather.new no_requests in
  let '(r2, w2, p2) := Weather.get_cached_weather changing 299 key london 3 w1 p1 in
  let '(r3, w3, p3) := Weather.get_cached_weather changing 300 key london 3 w2 p2 in
  let '(g1, w4, p4) := Weather.get_cached_city_info changing 0 "London" w3 p3 in
  let '(g2, w5, p5) := Weather.get_cached_city_info changing 300 "London" w4 p4 in
  (r1 = Some (mkWeather 215 0) ∧ r2 = r1 ∧
   r3 = r1 ∧ weather_requests p3 = [key] ∧
   weather_api changing (length (weather_requests p3)) key = Some (mkWeather 216 1)) ∧
  (g1 = Some london ∧
   g2 = g1 ∧ geocoding_requests p5 = ["London"] ∧
   geocoding_api changing (length (geocoding_requests p5)) "London"
   = Some (mkGeo "London" 51507401 (-127800))).
Proof. vm_compute. done. Qed.

(** ** Settings on their way to the renderer *)

(** After a successful [/setup], a read through the settings cog returns
    the written document: the cog's own entry was popped and the memo of
    the store was cleared. *)
Lemma settings_cog_reads_written_document o faults now g setting value h c h' c' :
  Settings.setup o faults now (Some g) setting (Some value) h c
  = (Settings.Updated, h', c') →
  ∃ document,
    DatabaseManager.table (Settings.db c') !! g
    = Some (DatabaseManager.mkRow document now now) ∧
    ∀ now',
      let '(r, h'', _) :=
        Settings.get_server_settings DatabaseManager.ReadCompletes now' g h' c' in
      deref h'' r = Some document.
Proof.
  unfold Settings.setup.
  destruct (DatabaseManager.get_server_settings o now g h (Settings.db c))
    as [[r h1] db1].
  destruct (Settings.validate setting value) as [[]|[update|]]; [done| |done].
  destruct (deref (setitem r update h1) r) as [document|] eqn:Hdoc; [|done].
  destruct (DatabaseManager.set_server_settings faults now g document db1)
    as [success db2] eqn:Hset.
  destruct success as [[|]|]; [|done..]. intros [= <- <-].
  pose proof (set_loop_true_memo _ _ _ _ _ _ _ Hset) as Hmemo.
  pose proof (set_loop_true_row _ _ _ _ _ _ _ Hset) as Hrow.
  exists document. simpl. split; [done|].
  intros now'. unfold Settings.get_server_settings. simpl.
  rewrite lookup_delete_eq.
  unfold DatabaseManager.get_server_settings. rewrite Hmemo. simpl.
  rewrite (sync_existing _ _ _ _ _ Hrow). simpl.
  apply (deref_new_dict document).
Qed.

(** When the weather cog holds no fresh entry for the server, the settings
    it hands to the renderer after a successful [/setup] are the written
    document. *)
Lemma weather_cog_reads_written_document o faults now g setting value b b' now' :
  setup o faults now (Some g) setting (Some value) b = (Some Settings.Updated, b') →
  g ≠ "" → not_cached now' g (weather_cog b') →
  ∃ cog' document,
    settings_cog b' = Some cog' ∧
    DatabaseManager.table (Settings.db cog') !! g
    = Some (DatabaseManager.mkRow document now now) ∧
    let '(r, h, _, _) :=
      Weather.get_guild_settings DatabaseManager.ReadCompletes now' (Some g)
        (objects b') (settings_cog b') (weather_cog b') in
    deref h r = Some document.
Proof.
  unfold setup. destruct (settings_cog b) as [cog|]; [|done].
  destruct (Settings.setup o faults now (Some g) setting (Some value) (objects b) cog)
    as [[answer h'] cog'] eqn:Hsetup.
  intros [= -> <-] Hg Hnot. simpl in *.
  destruct (settings_cog_reads_written_document _ _ _ _ _ _ _ _ _ _ Hsetup)
    as (document & Hrow & Hread).
  exists cog', document. split_and!; [done..|].
  specialize (Hread now'). unfold Weather.get_guild_settings.
  rewrite decide_False by done. unfold not_cached in Hnot.
  destruct (Weather._settings_cache (weather_cog b) !! g) as [[r0 timestamp]|].
  - rewrite decide_False by done.
    destruct (Settings.get_server_settings _ now' g h' cog') as [[r h''] cog'']. done.
  - destruct (Settings.get_server_settings _ now' g h' cog') as [[r h''] cog'']. done.
Qed.

(** C3 on the code: all three updates succeed and the table holds
    imperial units, 1 decimal place, 2 forecast days; the [/weather] that
    follows still renders with the dictionary the weather cog cached at
    time 0, which holds metric units and 2 decimal places (and 2 forecast
    days, only because the first update changed that very dictionary in
    place). *)
Theorem stale_settings_reach_renderer :
  let '(answers, render, b) := scenario_G1 in
  answers = [Some Settings.Updated; Some Settings.Updated; Some Settings.Updated] ∧
  (∃ cog, settings_cog b = Some cog ∧
     DatabaseManager.settings <$> DatabaseManager.table (Settings.db cog) !! "G1"
     = Some (mkSettings "imperial" 1 2)) ∧
  ∃ call, render = Some call ∧
    deref (objects b) (render_settings call) = Some (mkSettings "metric" 2 2) ∧
    render_rnd call = 2 ∧ render_forecast_days call = 2.
Proof.
  vm_compute. split_and!; [done| |].
  - eexists. split; reflexivity.
  - eexists. split_and!; reflexivity.
Qed.

(* ===================================================================== *)
(** * Further properties of the code *)
(* ===================================================================== *)

(** ** The store: round trips, memo and sweep *)

Section store_further.
Import DatabaseManager.

Lemma lru_find_store_head {V} n (k : string) (v : V) l :
  lru_find k (lru_store (S n) k v l) = Some v.
Proof. unfold lru_store. simpl. by rewrite decide_True. Qed.

Lemma lru_find_hit_head {V} (k : string) (v : V) l :
  lru_find k (lru_hit k v l) = Some v.
Proof. unfold lru_hit. simpl. by rewrite decide_True. Qed.

(** After any read of a server the memo answers for that server with the
    object the read returned. *)
Lemma get_memoizes o now g h d :
  lru_find g (memo (get_server_settings o now g h d).2)
  = Some (get_server_settings o now g h d).1.1.
Proof.
  unfold get_server_settings.
  destruct (lru_find g (memo d)) as [r|] eqn:Hfind; simpl.
  - apply lru_find_hit_head.
  - destruct (submit_and_wait o now g h (table d)) as [[res h1] tbl'].
    destruct res as [r|e]; simpl; [apply (lru_find_store_head 1999)|].
    apply (lru_find_store_head 1999).
Qed.

(** X1: a record written successfully is what a direct read of the store
    returns next, whatever was memoized before the write, and the read
    leaves the table as the write left it. *)
Theorem set_then_get_round_trip (faults : nat → option exn) (now now' : Z)
    (g : string) (s : SettingsDict) (h : heap) (d d' : t) :
  set_server_settings faults now g s d = (Returns true, d') →
  let '(r, h', d'') := get_server_settings ReadCompletes now' g h d' in
  deref h' r = Some s ∧ table d'' = table d' ∧
  table d' !! g = Some (mkRow s now now).
Proof.
  intros Hset.
  pose proof (set_loop_true_memo _ _ _ _ _ _ _ Hset) as Hmemo.
  pose proof (set_loop_true_row _ _ _ _ _ _ _ Hset) as Hrow.
  unfold get_server_settings. rewrite Hmemo. simpl.
  rewrite (sync_existing _ _ _ _ _ Hrow). simpl.
  split_and!; [apply (deref_new_dict s h) | done..].
Qed.

Lemma set_then_get_round_trip_witness :
  let d := DatabaseManager.new None ∅ in
  let s := mkSettings "imperial" 1 2 in
  let d' := (set_server_settings (λ _, None) 10 "G1" s d).2 in
  let '(r, h', d'') := get_server_settings ReadCompletes 11 "G1" [] d' in
  deref h' r = Some s ∧ table d'' = table d' ∧
  table d' !! "G1" = Some (mkRow s 10 10).
Proof.
  intros d s d'.
  exact (set_then_get_round_trip (λ _, None) 10 11 "G1" s [] d d' eq_refl).
Defined.

(** X2: a second read of the same server, at any time and whatever the
    storage would do, returns the very object of the first read, hands
    nothing to the executor and changes neither the heap nor the table. *)
Theorem second_read_is_served_from_memo (o1 o2 : read_outcome) (now1 now2 : Z)
    (g : string) (h : heap) (d : t) :
  let '(r1, h1, d1) := get_server_settings o1 now1 g h d in
  let '(r2, h2, d2) := get_server_settings o2 now2 g h1 d1 in
  r2 = r1 ∧ h2 = h1 ∧ table d2 = table d1 ∧ submitted d2 = submitted d1.
Proof.
  pose proof (get_memoizes o1 now1 g h d) as Hmemo.
  destruct (get_server_settings o1 now1 g h d) as [[r1 h1] d1]. simpl in Hmemo.
  unfold get_server_settings. rewrite Hmemo. done.
Qed.

(** X3: the defaults returned after a storage error stay memoized: while
    the memo is not cleared, later reads return the defaults although the
    table holds another record for the server. *)
Theorem failed_read_masks_stored_record (now1 now2 : Z) (o2 : read_outcome)
    (g : string) (row : Row) (h : heap) (d : t) :
  table d !! g = Some row → lru_find g (memo d) = None →
  let '(r1, h1, d1) := get_server_settings ReadRaises now1 g h d in
  let '(r2, h2, d2) := get_server_settings o2 now2 g h1 d1 in
  deref h2 r2 = Some DEFAULT_SETTINGS ∧ table d2 !! g = Some row.
Proof.
  intros Hrow Hmiss.
  pose proof (get_memoizes ReadRaises now1 g h d) as Hmemo.
  assert (Hfirst : let '(r1, h1, d1) := get_server_settings ReadRaises now1 g h d in
                   deref h1 r1 = Some DEFAULT_SETTINGS ∧ table d1 = table d).
  { unfold get_server_settings. rewrite Hmiss. simpl.
    split; [apply (deref_new_dict DEFAULT_SETTINGS h) | done]. }
  destruct (get_server_settings ReadRaises now1 g h d) as [[r1 h1] d1].
  simpl in Hmemo. destruct Hfirst as [Hd Htbl].
  unfold get_server_settings. rewrite Hmemo. simpl. by rewrite Htbl.
Qed.

Lemma failed_read_masks_stored_record_witness :
  let row := mkRow (mkSettings "imperial" 1 2) 5 5 in
  let d := {| table := {[ "G1" := row ]}; memo := []; submitted := []; slept := [] |} in
  let '(r1, h1, d1) := get_server_settings ReadRaises 10 "G1" [] d in
  let '(r2, h2, d2) := get_server_settings ReadCompletes 20 "G1" h1 d1 in
  deref h2 r2 = Some DEFAULT_SETTINGS ∧ table d2 !! "G1" = Some row.
Proof.
  intros row d.
  exact (failed_read_masks_stored_record 10 20 ReadCompletes "G1" row [] d
           eq_refl eq_refl).
Defined.

(** X4: a record the sweep deletes is re-created with the defaults, stamped
    with the time of the read, by the next read that reaches the table. *)
Theorem swept_server_falls_back_to_defaults (now now' di do : Z) (g : string)
    (row : Row) (h : heap) (d : t) :
  table d !! g = Some row →
  expired (now - di * 86400) (now - do * 86400) row →
  let d1 := cleanup_inactive_servers None now di do d in
  let '(r, h', d2) := get_server_settings ReadCompletes now' g h d1 in
  table d1 !! g = None ∧
  deref h' r = Some DEFAULT_SETTINGS ∧
  table d2 !! g = Some (mkRow DEFAULT_SETTINGS now' now').
Proof.
  intros Hrow Hexp d1.
  assert (Hgone : table d1 !! g = None).
  { unfold d1. rewrite sweep_lookup, Hrow. by rewrite decide_True. }
  assert (Hmemo : memo d1 = []).
  { unfold d1. simpl. rewrite bool_decide_eq_true_2; [done|].
    assert (filter (λ kv : string * Row,
              expired (now - di * 86400) (now - do * 86400) kv.2) (table d) !! g
            = Some row) as Hin by (by apply map_lookup_filter_Some).
    destruct (decide (size (filter (λ kv : string * Row,
              expired (now - di * 86400) (now - do * 86400) kv.2) (table d)) = 0%nat))
      as [Hz|Hnz]; [|lia].
    apply map_size_empty_iff in Hz. rewrite Hz in Hin. done. }
  clearbody d1. unfold get_server_settings, submit_and_wait, _get_server_settings_sync.
  rewrite Hmemo, Hgone. simpl.
  split_and!; [done | apply (deref_new_dict DEFAULT_SETTINGS h) | apply lookup_insert_eq].
Qed.

Lemma swept_server_falls_back_to_defaults_witness :
  let row := mkRow (mkSettings "imperial" 1 2) 0 0 in
  let d := {| table := {[ "G1" := row ]}; memo := [("G1", 0%nat)];
              submitted := []; slept := [] |} in
  let d1 := cleanup_inactive_servers None 2600000 30 90 d in
  let '(r, h', d2) := get_server_settings ReadCompletes 2600001 "G1"
                        [mkSettings "imperial" 1 2] d1 in
  table d1 !! "G1" = None ∧
  deref h' r = Some DEFAULT_SETTINGS ∧
  table d2 !! "G1" = Some (mkRow DEFAULT_SETTINGS 2600001 2600001).
Proof.
  intros row d.
  apply (swept_server_falls_back_to_defaults 2600000 2600001 30 90 "G1" row
           [mkSettings "imperial" 1 2] d eq_refl).
  left. simpl. lia.
Defined.

(** X5: sweeping again at the same time with the same thresholds changes
    nothing: the second sweep deletes no row and leaves the memo alone. *)
Theorem sweep_is_idempotent (now di do : Z) (d : t) :
  cleanup_inactive_servers None now di do (cleanup_inactive_servers None now di do d)
  = cleanup_inactive_servers None now di do d.
Proof.
  set (d1 := cleanup_inactive_servers None now di do d).
  assert (Hnone : filter (λ kv : string * Row,
            expired (now - di * 86400) (now - do * 86400) kv.2) (table d1) = ∅).
  { apply map_empty. intros g. apply map_lookup_filter_None. right.
    intros row Hrow. unfold d1 in Hrow. simpl in Hrow.
    apply map_lookup_filter_Some in Hrow as [_ Hkeep]. done. }
  clearbody d1. destruct d1 as [tbl m sub sl].
  unfold cleanup_inactive_servers. simpl in *.
  rewrite Hnone, map_size_empty. simpl. f_equal.
  apply sweep_nothing_deleted. rewrite Hnone, map_size_empty. lia.
Qed.

End store_further.

(** ** The store: what every reachable state satisfies *)

Section store_invariants.
Import DatabaseManager.

Lemma get_stamps_agree o now g h d :
  stamps_agree d → stamps_agree (get_server_settings o now g h d).2.
Proof.
  intros Hinv. unfold get_server_settings, submit_and_wait, _get_server_settings_sync.
  destruct (lru_find g (memo d)); [done|].
  destruct o; destruct (table d !! g) as [row|] eqn:Hrow; simpl; try done;
    intros g' row'; simpl; rewrite lookup_insert; case_decide;
    [by intros [= <-] | apply Hinv | by intros [= <-] | apply Hinv].
Qed.

Lemma set_loop_stamps_agree attempts faults now g s d :
  stamps_agree d → stamps_agree (set_loop attempts faults now g s d).2.
Proof.
  revert d. induction attempts as [|a rest IH]; intros d Hinv; simpl; [done|].
  unfold attempt_write. destruct (faults a) as [[msg|]|]; simpl.
  - destruct (is_locked msg && _); simpl; [|done]. by apply IH.
  - done.
  - intros g' row'. simpl. rewrite lookup_insert. case_decide;
      [by intros [= <-] | apply Hinv].
Qed.

Lemma sweep_stamps_agree fault now di do d :
  stamps_agree d → stamps_agree (cleanup_inactive_servers fault now di do d).
Proof.
  intros Hinv. destruct fault; [done|]. intros g row. simpl.
  intros Hrow. apply map_lookup_filter_Some in Hrow as [Hrow _]. by eapply Hinv.
Qed.

Lemma run_store_stamps_agree ops h d :
  stamps_agree d → stamps_agree (run_store ops (h, d)).2.
Proof.
  revert h d. induction ops as [|op rest IH]; intros h d Hinv; simpl; [done|].
  destruct op as [o now g|faults now g s|fault now di do]; simpl.
  - pose proof (get_stamps_agree o now g h d Hinv) as Hinv'.
    destruct (get_server_settings o now g h d) as [[r h'] d']. by apply IH.
  - apply IH. by apply set_loop_stamps_agree.
  - apply IH. by apply sweep_stamps_agree.
Qed.

(** X6: in a process started on any database file, after any history of
    reads, writes and sweeps with any outcomes, the two time stamps of
    every row are equal (rows are only created and replaced, both stamps
    at once); hence, whenever the age threshold is not below the
    inactivity threshold, as with the defaults 30 and 90 days, a sweep
    deletes exactly the rows last accessed before the inactivity cutoff
    and the age condition never decides. *)
Theorem stamps_always_agree (disk : gmap string Row) (ops : list store_op) :
  let d := (run_store ops ([], DatabaseManager.new None disk)).2 in
  (∀ g row, table d !! g = Some row → last_updated row = last_accessed row) ∧
  (∀ now di do g, di ≤ do →
     table (cleanup_inactive_servers None now di do d) !! g =
     match table d !! g with
     | Some row =>
         if decide (last_accessed row < now - di * 86400) then None else Some row
     | None => None
     end).
Proof.
  intros d.
  assert (Hinv : stamps_agree d).
  { apply run_store_stamps_agree. intros g row. simpl. by rewrite lookup_empty. }
  split; [exact Hinv|]. intros now di do g Hle.
  rewrite sweep_lookup. destruct (table d !! g) as [row|] eqn:Hrow; [|done].
  pose proof (Hinv g row Hrow) as Heq. unfold expired.
  repeat case_decide; try done; lia.
Qed.

Lemma stamps_always_agree_witness :
  let ops := [StoreGet ReadCompletes 0 "G1";
              StoreSet (λ _, None) 86400 "G2" (mkSettings "imperial" 1 2);
              StoreGet ReadTimesOut 90000 "G3"] in
  let d := (run_store ops ([], DatabaseManager.new None ∅)).2 in
  table (cleanup_inactive_servers None (31 * 86400) 30 90 d) !! "G1" = None ∧
  table (cleanup_inactive_servers None (31 * 86400) 30 90 d) !! "G2"
  = Some (mkRow (mkSettings "imperial" 1 2) 86400 86400).
Proof.
  intros ops d. subst d.
  pose proof (proj2 (stamps_always_agree ∅ ops) (31 * 86400) 30 90) as Hsweep.
  split.
  - rewrite (Hsweep "G1") by lia. reflexivity.
  - rewrite (Hsweep "G2") by lia. reflexivity.
Defined.

Lemma alloc_in_range s h :
  in_range s → (∀ r x, deref h r = Some x → in_range x) →
  ∀ r x, deref (new_dict s h).2 r = Some x → in_range x.
Proof.
  intros Hs Hh r x. unfold deref, new_dict. simpl. intros Hx.
  apply lookup_snoc_Some in Hx as [[_ Hx]|[_ <-]]; [by eapply Hh | done].
Qed.

Lemma DEFAULT_SETTINGS_in_range : in_range DEFAULT_SETTINGS.
Proof. unfold in_range. simpl. split_and!; [by left | lia..]. Qed.

Lemma get_in_range o now g h d :
  store_in_range h d →
  let '(r, h', d') := get_server_settings o now g h d in store_in_range h' d'.
Proof.
  intros [Hh Hd]. unfold get_server_settings.
  destruct (lru_find g (memo d)); [done|].
  unfold submit_and_wait, _get_server_settings_sync.
  pose proof DEFAULT_SETTINGS_in_range as Hdef.
  assert (Hins : ∀ g' row, <[g := mkRow DEFAULT_SETTINGS now now]> (table d) !! g'
                           = Some row → in_range (settings row)).
  { intros g' row. rewrite lookup_insert. case_decide; [by intros [= <-] | apply Hd]. }
  destruct o; destruct (table d !! g) as [row|] eqn:Hrow; simpl; split; simpl;
    eauto using alloc_in_range.
Qed.

Lemma set_in_range faults now g s h d :
  in_range s → store_in_range h d →
  store_in_range h (set_server_settings faults now g s d).2.
Proof.
  intros Hs [Hh Hd]. split; [done|]. unfold set_server_settings.
  generalize (seq 0 retries). intros attempts. revert d Hd.
  induction attempts as [|a rest IH]; intros d Hd; simpl; [done|].
  unfold attempt_write. destruct (faults a) as [[msg|]|]; simpl.
  - destruct (is_locked msg && _); simpl; [|done]. by apply IH.
  - done.
  - intros g' row. rewrite lookup_insert. case_decide; [by intros [= <-] | apply Hd].
Qed.

Lemma sweep_in_range fault now di do h d :
  store_in_range h d → store_in_range h (cleanup_inactive_servers fault now di do d).
Proof.
  intros [Hh Hd]. destruct fault; [done|]. split; [done|]. simpl.
  intros g row Hrow. apply map_lookup_filter_Some in Hrow as [Hrow _]. by eapply Hd.
Qed.

End store_invariants.

(** ** The commands: validation and what reaches the store *)

Section commands_further.

Lemma validate_in_range setting value update s :
  Settings.validate setting value = inr (Some update) →
  in_range s → in_range (update s).
Proof.
  unfold Settings.validate, in_range. intros Hv (Hu & Hd & Hf).
  repeat case_decide; try destruct (py_int value) as [n|]; repeat case_decide;
    simplify_eq; simpl; split_and!; try done; try lia.
Qed.

Lemma setitem_in_range r f h :
  (∀ s, in_range s → in_range (f s)) →
  (∀ r' x, deref h r' = Some x → in_range x) →
  ∀ r' x, deref (setitem r f h) r' = Some x → in_range x.
Proof.
  intros Hf Hh r' x. unfold deref, setitem, ref, heap in *. rewrite list_lookup_alter.
  case_decide as Heq.
  - subst. destruct (h !! r') as [y|] eqn:Hy; simpl; [|done].
    intros [= <-]. apply Hf. by eapply Hh.
  - apply Hh.
Qed.

Lemma deref_setitem r f h : deref (setitem r f h) r = f <$> deref h r.
Proof. unfold deref, setitem, ref, heap. apply list_lookup_alter_eq. Qed.

Lemma set_loop_false attempts faults now g s d d' :
  DatabaseManager.set_loop attempts faults now g s d = (Returns false, d') →
  DatabaseManager.table d' = DatabaseManager.table d ∧
  DatabaseManager.memo d' = DatabaseManager.memo d.
Proof.
  revert d. induction attempts as [|a rest IH]; intros d; simpl; [by intros [= <-]|].
  unfold DatabaseManager.attempt_write. destruct (faults a) as [[msg|]|]; simpl.
  - destruct (DatabaseManager.is_locked msg && _); [|by intros [= <-]].
    intros Hrest. by apply IH in Hrest.
  - by intros [= <-].
  - done.
Qed.

(** The shape of a [/setup] with a value, after its read of the store. *)
Lemma setup_cases o faults now g setting value h c :
  let '(r, h1, db1) :=
    DatabaseManager.get_server_settings o now g h (Settings.db c) in
  let cache := delete g (Settings._settings_cache c) in
  let c1 := {| Settings.db := db1; Settings._settings_cache := cache |} in
  match Settings.validate setting value with
  | inl _ =>
      Settings.setup o faults now (Some g) setting (Some value) h c
      = (Settings.InvalidFormat, h1, c1)
  | inr None =>
      Settings.setup o faults now (Some g) setting (Some value) h c
      = (Settings.Rejected, h1, c1)
  | inr (Some update) =>
      match deref h1 r with
      | Some old =>
          let '(success, db2) :=
            DatabaseManager.set_server_settings faults now g (update old) db1 in
          Settings.setup o faults now (Some g) setting (Some value) h c
          = (match success with
             | Returns true => Settings.Updated
             | Returns false => Settings.FailedToSave
             | Raises _ => Settings.ErrorOccurred
             end, setitem r update h1,
             {| Settings.db := db2; Settings._settings_cache := cache |})
      | None =>
          Settings.setup o faults now (Some g) setting (Some value) h c
          = (Settings.ErrorOccurred, setitem r update h1, c1)
      end
  end.
Proof.
  unfold Settings.setup.
  destruct (DatabaseManager.get_server_settings o now g h (Settings.db c))
    as [[r h1] db1].
  destruct (Settings.validate setting value) as [[]|[update|]]; [done| |done].
  rewrite deref_setitem. destruct (deref h1 r) as [old|]; simpl; [|done].
  destruct (DatabaseManager.set_server_settings faults now g (update old) db1)
    as [[[|]|e] db2]; done.
Qed.

(** X8: a [/setup] that answers "updated" has written, with fresh stamps,
    the dictionary it read with exactly the named field replaced by the
    validated value (units in lower case, metric or imperial; decimal
    places an integer from 0 to 5; forecast days an integer from 1 to 5);
    a [/setup] that rejects the value or cannot parse it leaves heap and
    store as its read left them. *)
Theorem setup_writes_one_validated_field (o : DatabaseManager.read_outcome)
    (faults : nat → option exn) (now : Z) (g setting value : string)
    (h h' : heap) (c c' : Settings.t) (answer : Settings.reply) :
  Settings.setup o faults now (Some g) setting (Some value) h c = (answer, h', c') →
  let '(r, h1, db1) :=
    DatabaseManager.get_server_settings o now g h (Settings.db c) in
  (answer = Settings.Updated →
   ∃ old new,
     deref h1 r = Some old ∧
     DatabaseManager.table (Settings.db c') !! g
     = Some (DatabaseManager.mkRow new now now) ∧
     (setting = "units" →
      (lower value = "metric" ∨ lower value = "imperial") ∧
      new = mkSettings (lower value) (decimal_places old) (forecast_days old)) ∧
     (setting = "decimal_places" →
      ∃ n, py_int value = Some n ∧ 0 ≤ n ≤ 5 ∧
           new = mkSettings (units old) n (forecast_days old)) ∧
     (setting = "forecast_days" →
      ∃ n, py_int value = Some n ∧ 1 ≤ n ≤ 5 ∧
           new = mkSettings (units old) (decimal_places old) n)) ∧
  (answer = Settings.Rejected ∨ answer = Settings.InvalidFormat →
   h' = h1 ∧ Settings.db c' = db1).
Proof.
  intros Hsetup. pose proof (setup_cases o faults now g setting value h c) as Hcases.
  destruct (DatabaseManager.get_server_settings o now g h (Settings.db c))
    as [[r h1] db1]. cbv zeta in Hcases.
  destruct (Settings.validate setting value) as [[]|[update|]] eqn:Hval.
  - rewrite Hcases in Hsetup. injection Hsetup as <- <- <-. split; [done|]. done.
  - destruct (deref h1 r) as [old|] eqn:Hold.
    + destruct (DatabaseManager.set_server_settings faults now g (update old) db1)
        as [success db2] eqn:Hset.
      rewrite Hcases in Hsetup. injection Hsetup as <- <- <-.
      split; [|by destruct success as [[|]|]; intros [|]].
      intros Hup. destruct success as [[|]|]; try done.
      exists old, (update old). split; [done|].
      split; [exact (set_loop_true_row _ _ _ _ _ _ _ Hset)|].
      unfold Settings.validate in Hval.
      split_and!; intros ->; repeat case_decide; try done;
        try destruct (py_int value) as [n|]; repeat case_decide; simplify_eq;
        eauto.
    + rewrite Hcases in Hsetup. injection Hsetup as <- <- <-.
      split; [done|]. by intros [|].
  - rewrite Hcases in Hsetup. injection Hsetup as <- <- <-. split; [done|]. done.
Qed.

Lemma setup_writes_one_validated_field_witness :
  let c := Settings.new None ∅ in
  let '(answer, h', c') :=
    Settings.setup DatabaseManager.ReadCompletes (λ _, None) 10 (Some "G1")
      "units" (Some "Imperial") [] c in
  answer = Settings.Updated ∧
  DatabaseManager.table (Settings.db c') !! "G1"
  = Some (DatabaseManager.mkRow (mkSettings "imperial" 2 3) 10 10).
Proof.
  intros c.
  pose proof (setup_writes_one_validated_field DatabaseManager.ReadCompletes
                (λ _, None) 10 "G1" "units" "Imperial" [] _ c _ _ eq_refl) as Hsetup.
  split; [reflexivity|].
  destruct Hsetup as [Hup _].
  destruct (Hup eq_refl) as (old & new & Hold & Hrow & Hunits & _).
  destruct (Hunits eq_refl) as [_ ->]. injection Hold as <-. exact Hrow.
Defined.

(** X9: when the write of a [/setup] fails, the table keeps what it held,
    but the dictionary of the store's memo has already been changed in
    place: every later read of that server, whatever its outcome, returns
    the very dictionary with the unsaved value. *)
Theorem failed_save_is_still_read (o o' : DatabaseManager.read_outcome)
    (faults : nat → option exn) (now now' : Z) (g setting value : string)
    (h h' : heap) (c c' : Settings.t) :
  Settings.setup o faults now (Some g) setting (Some value) h c
  = (Settings.FailedToSave, h', c') →
  let '(r, h1, db1) :=
    DatabaseManager.get_server_settings o now g h (Settings.db c) in
  let '(r2, h2, db2) :=
    DatabaseManager.get_server_settings o' now' g h' (Settings.db c') in
  ∃ update old,
    Settings.validate setting value = inr (Some update) ∧
    deref h1 r = Some old ∧
    DatabaseManager.table (Settings.db c') = DatabaseManager.table db1 ∧
    r2 = r ∧ deref h2 r2 = Some (update old) ∧
    DatabaseManager.table db2 = DatabaseManager.table db1.
Proof.
  intros Hsetup. pose proof (setup_cases o faults now g setting value h c) as Hcases.
  pose proof (get_memoizes o now g h (Settings.db c)) as Hmemo.
  destruct (DatabaseManager.get_server_settings o now g h (Settings.db c))
    as [[r h1] db1]. cbv zeta in Hcases. simpl in Hmemo.
  destruct (Settings.validate setting value) as [[]|[update|]] eqn:Hval;
    [by rewrite Hcases in Hsetup| |by rewrite Hcases in Hsetup].
  destruct (deref h1 r) as [old|] eqn:Hold; [|by rewrite Hcases in Hsetup].
  destruct (DatabaseManager.set_server_settings faults now g (update old) db1)
    as [success db2] eqn:Hset.
  rewrite Hcases in Hsetup. destruct success as [[|]|]; try done.
  injection Hsetup as <- <-. simpl.
  apply set_loop_false in Hset as [Htbl Hm].
  unfold DatabaseManager.get_server_settings. rewrite Hm, Hmemo. simpl.
  exists update, old. split_and!; try done.
  rewrite deref_setitem, Hold. done.
Qed.

Lemma failed_save_is_still_read_witness :
  let c := Settings.new None ∅ in
  let busy : nat → option exn := λ _, Some OtherException in
  let '(answer, h', c') :=
    Settings.setup DatabaseManager.ReadCompletes busy 10 (Some "G1")
      "units" (Some "imperial") [] c in
  let '(r2, h2, db2) :=
    DatabaseManager.get_server_settings DatabaseManager.ReadCompletes 20 "G1" h'
      (Settings.db c') in
  answer = Settings.FailedToSave ∧
  deref h2 r2 = Some (mkSettings "imperial" 2 3) ∧
  DatabaseManager.settings <$> DatabaseManager.table db2 !! "G1"
  = Some DEFAULT_SETTINGS.
Proof.
  intros c busy.
  pose proof (failed_save_is_still_read DatabaseManager.ReadCompletes
                DatabaseManager.ReadCompletes busy 10 20 "G1" "units" "imperial"
                [] _ c _ eq_refl) as Hread.
  vm_compute in Hread.
  destruct Hread as (update & old & Hval & Hold & _ & _ & Hderef & _).
  vm_compute. split_and!; [reflexivity| |reflexivity].
  injection Hval as <-. injection Hold as <-. exact Hderef.
Defined.

Lemma settings_get_in_range o now g h c :
  cog_in_range h (Some c) →
  let '(r, h', c') := Settings.get_server_settings o now g h c in
  cog_in_range h' (Some c').
Proof.
  intros [Hh Hc]. unfold Settings.get_server_settings.
  assert (Hstore : store_in_range h (Settings.db c)) by (split; eauto).
  pose proof (get_in_range o now g h (Settings.db c) Hstore) as Hget.
  destruct (DatabaseManager.get_server_settings o now g h (Settings.db c))
    as [[r h1] db1]. destruct Hget as [Hh1 Hd1].
  assert (cog_in_range h1
            (Some {| Settings.db := db1;
                     Settings._settings_cache :=
                       <[g := (r, now)]> (Settings._settings_cache c) |})) as Hfresh.
  { split; [done|]. intros c0 g' row [= <-]. apply Hd1. }
  destruct (Settings._settings_cache c !! g) as [[r0 ts]|]; [|done].
  case_decide; [|done]. split; [done|]. intros c0 g' row [= <-]. eauto.
Qed.

Lemma settings_setup_in_range o faults now guild setting value h c :
  cog_in_range h (Some c) →
  let '(answer, h', c') := Settings.setup o faults now guild setting value h c in
  cog_in_range h' (Some c').
Proof.
  intros [Hh Hc]. unfold Settings.setup. destruct guild as [g|]; [|by split].
  assert (Hstore : store_in_range h (Settings.db c)) by (split; eauto).
  pose proof (get_in_range o now g h (Settings.db c) Hstore) as Hget.
  destruct (DatabaseManager.get_server_settings o now g h (Settings.db c))
    as [[r h1] db1]. destruct Hget as [Hh1 Hd1].
  assert (Hc1 : ∀ cache, cog_in_range h1
            (Some {| Settings.db := db1; Settings._settings_cache := cache |})).
  { intros cache. split; [done|]. intros c0 g' row [= <-]. apply Hd1. }
  destruct value as [value|].
  2:{ destruct (deref h1 r ≫= Settings.getitem setting); apply Hc1. }
  destruct (Settings.validate setting value) as [[]|[update|]] eqn:Hval;
    [apply Hc1| |apply Hc1].
  pose proof (setitem_in_range r update h1
                (λ s, validate_in_range setting value update s Hval) Hh1) as Hh2.
  destruct (deref (setitem r update h1) r) as [document|] eqn:Hdoc.
  2:{ split; [done|]. intros c0 g' row [= <-]. apply Hd1. }
  assert (store_in_range (setitem r update h1) db1) as Hstore2 by (split; eauto).
  pose proof (set_in_range faults now g document _ _ (Hh2 _ _ Hdoc) Hstore2) as [_ Hd2].
  destruct (DatabaseManager.set_server_settings faults now g document db1)
    as [success db2]. simpl in Hd2.
  destruct success as [[|]|]; (split; [done|]); intros c0 g' row [= <-]; apply Hd2.
Qed.

Lemma settings_reset_in_range faults now guild h c :
  cog_in_range h (Some c) →
  let '(answer, h', c') := Settings.reset faults now guild h c in
  cog_in_range h' (Some c').
Proof.
  intros [Hh Hc]. unfold Settings.reset. destruct guild as [g|]; [|by split].
  assert (Hstore : store_in_range h (Settings.db c)) by (split; eauto).
  pose proof (set_in_range faults now g DEFAULT_SETTINGS _ _
                DEFAULT_SETTINGS_in_range Hstore) as [_ Hd2].
  destruct (DatabaseManager.set_server_settings faults now g DEFAULT_SETTINGS
              (Settings.db c)) as [success db2]. simpl in Hd2.
  destruct success as [[|]|]; (split; [done|]); intros c0 g' row [= <-]; apply Hd2.
Qed.

Lemma guild_settings_in_range o now guild h cog w :
  cog_in_range h cog →
  let '(r, h', cog', w') := Weather.get_guild_settings o now guild h cog w in
  cog_in_range h' cog'.
Proof.
  intros Hin. unfold Weather.get_guild_settings.
  assert (Hdef : cog_in_range (new_dict DEFAULT_SETTINGS h).2 cog).
  { destruct Hin as [Hh Hc]. split; [|done].
    apply alloc_in_range; [apply DEFAULT_SETTINGS_in_range | done]. }
  destruct guild as [g|]; [|done]. case_decide; [done|].
  assert (Hfresh : let '(r, h', cog', w') :=
            match cog with
            | Some settings_cog =>
                let '(settings, h', settings_cog') :=
                  Settings.get_server_settings o now g h settings_cog in
                (settings, h', Some settings_cog',
                 {| Weather._settings_cache :=
                      <[g := (settings, now)]> (Weather._settings_cache w);
                    Weather._city_cache := Weather._city_cache w;
                    Weather._weather_cache := Weather._weather_cache w |})
            | None =>
                let '(r, h') := new_dict DEFAULT_SETTINGS h in (r, h', cog, w)
            end in cog_in_range h' cog').
  { destruct cog as [c|]; [|done].
    pose proof (settings_get_in_range o now g h c Hin) as Hget.
    by destruct (Settings.get_server_settings o now g h c) as [[r h'] c']. }
  destruct (Weather._settings_cache w !! g) as [[r0 ts]|]; [|done].
  by case_decide.
Qed.

Lemma weather_in_range world o now guild city days_arg rnd_arg b :
  bot_in_range b →
  let '(render, b') := weather world o now guild city days_arg rnd_arg b in
  bot_in_range b' ∧
  ∀ call, render = Some call →
    1 ≤ render_rnd call ≤ 5 ∧ 1 ≤ render_forecast_days call ≤ 5 ∧
    ∃ s, deref (objects b') (render_settings call) = Some s ∧ in_range s.
Proof.
  intros [Hh Hc]. unfold weather.
  assert (Hin : cog_in_range (objects b) (settings_cog b)).
  { split; [done|]. intros c g row Hcog. by apply Hc. }
  pose proof (guild_settings_in_range o now guild _ _ (weather_cog b) Hin) as Hget.
  destruct (Weather.get_guild_settings o now guild (objects b) (settings_cog b)
              (weather_cog b)) as [[[settings h1] cog1] w1].
  destruct Hget as [Hh1 Hc1].
  assert (Hb : ∀ p w, bot_in_range {| objects := h1; providers := p;
                                     settings_cog := cog1; weather_cog := w |}).
  { intros p w. split; simpl; [done|]. intros c g row Hcog. by apply Hc1. }
  destruct (deref h1 settings) as [document|] eqn:Hdoc; [|by split].
  case_decide as Hrange; [|by split].
  destruct (Weather.get_cached_city_info world now city w1 (providers b))
    as [[[city_info|] w2] p2]; [|by split].
  destruct (Weather.get_cached_weather world now _ city_info _ w2 p2)
    as [[[weather_data|] w3] p3]; [|by split].
  split; [done|]. intros call [= <-]. simpl.
  split_and!; try lia. exists document. split; [done|]. by eapply Hh1.
Qed.

Lemma run_command_in_range world cmd b :
  bot_in_range b → bot_in_range (run_command world cmd b).
Proof.
  intros Hb. destruct cmd as [o now guild city days rnd|o faults now guild setting value
                              |faults now guild|fault now]; simpl.
  - pose proof (weather_in_range world o now guild city days rnd b Hb) as Hw.
    destruct (weather world o now guild city days rnd b) as [render b']. apply Hw.
  - unfold setup. destruct (settings_cog b) as [cog|] eqn:Hcog; [|done].
    assert (Hin : cog_in_range (objects b) (Some cog)).
    { destruct Hb as [Hh Hc]. split; [done|]. intros c g row [= <-]. by apply Hc. }
    pose proof (settings_setup_in_range o faults now guild setting value _ _ Hin) as Hs.
    destruct (Settings.setup o faults now guild setting value (objects b) cog)
      as [[answer h'] cog']. destruct Hs as [Hh' Hc'].
    split; simpl; [done|]. intros c g row [= <-]. by apply Hc'.
  - unfold reset. destruct (settings_cog b) as [cog|] eqn:Hcog; [|done].
    assert (Hin : cog_in_range (objects b) (Some cog)).
    { destruct Hb as [Hh Hc]. split; [done|]. intros c g row [= <-]. by apply Hc. }
    pose proof (settings_reset_in_range faults now guild _ _ Hin) as Hs.
    destruct (Settings.reset faults now guild (objects b) cog) as [[answer h'] cog'].
    destruct Hs as [Hh' Hc']. split; simpl; [done|].
    intros c g row [= <-]. by apply Hc'.
  - unfold periodic_cleanup. destruct (settings_cog b) as [cog|] eqn:Hcog; [|done].
    destruct Hb as [Hh Hc]. split; simpl; [done|]. intros c g row [= <-]. simpl.
    assert (store_in_range (objects b) (Settings.db cog)) as Hstore
      by (split; [done | intros g' row'; by apply Hc]).
    apply (sweep_in_range fault now 30 90) in Hstore as [_ Hd]. apply Hd.
Qed.

Lemma run_commands_in_range world cmds b :
  bot_in_range b → bot_in_range (run_commands world cmds b).
Proof.
  revert b. induction cmds as [|cmd rest IH]; intros b Hb; simpl; [done|].
  by apply IH, run_command_in_range.
Qed.

(** X7: in a bot started on any database file, after any sequence of
    [/weather], [/setup] and [/reset] commands and background sweeps, with
    any arguments and any storage or provider outcomes, every stored row
    and every settings dictionary of the process is in range (units metric
    or imperial, decimal places 0 to 5, forecast days 1 to 5); and whenever
    [/weather] then calls the renderer, its precision and its number of
    days are between 1 and 5 and its settings dictionary is in range. *)
Theorem settings_stay_in_range (world : World)
    (disk : gmap string DatabaseManager.Row) (cmds : list command) :
  let b := run_commands world cmds (start disk) in
  bot_in_range b ∧
  ∀ o now guild city days_arg rnd_arg call,
    (weather world o now guild city days_arg rnd_arg b).1 = Some call →
    1 ≤ render_rnd call ≤ 5 ∧ 1 ≤ render_forecast_days call ≤ 5 ∧
    ∃ s, deref (objects (weather world o now guild city days_arg rnd_arg b).2)
           (render_settings call) = Some s ∧ in_range s.
Proof.
  intros b.
  assert (Hb : bot_in_range b).
  { apply run_commands_in_range. split; simpl; [intros r s; unfold deref; by destruct r|].
    intros c g row [= <-]. simpl. by rewrite lookup_empty. }
  split; [done|]. intros o now guild city days_arg rnd_arg call Hcall.
  pose proof (weather_in_range world o now guild city days_arg rnd_arg b Hb) as Hw.
  destruct (weather world o now guild city days_arg rnd_arg b) as [render b'].
  simpl in *. by apply Hw.
Qed.

Lemma setup_decimal_places_row o faults now g value n h c h' c' :
  Settings.setup o faults now (Some g) "decimal_places" (Some value) h c
  = (Settings.Updated, h', c') →
  py_int value = Some n →
  ∃ document,
    DatabaseManager.table (Settings.db c') !! g
    = Some (DatabaseManager.mkRow document now now) ∧
    decimal_places document = n ∧ 0 ≤ n ≤ 5.
Proof.
  intros Hsetup Hint.
  pose proof (setup_cases o faults now g "decimal_places" value h c) as Hcases.
  destruct (DatabaseManager.get_server_settings o now g h (Settings.db c))
    as [[r h1] db1]. cbv zeta in Hcases.
  destruct (Settings.validate "decimal_places" value) as [[]|[update|]] eqn:Hval;
    [by rewrite Hcases in Hsetup| |by rewrite Hcases in Hsetup].
  destruct (deref h1 r) as [old|]; [|by rewrite Hcases in Hsetup].
  destruct (DatabaseManager.set_server_settings faults now g (update old) db1)
    as [success db2] eqn:Hset.
  rewrite Hcases in Hsetup. destruct success as [[|]|]; try done.
  injection Hsetup as <- <-. exists (update old).
  split; [exact (set_loop_true_row _ _ _ _ _ _ _ Hset)|].
  unfold Settings.validate in Hval. rewrite Hint in Hval.
  repeat case_decide; simplify_eq. done.
Qed.

(** X10: [/setup] accepts 0 decimal places, but [/weather] accepts a
    precision from 1 to 5 only: once the setting is saved as 0 and the
    weather cog holds no fresh entry for the server, a [/weather] without
    its own precision is turned down before any lookup, whatever the city
    and the number of days, and no request is sent. *)
Theorem zero_decimal_places_blocks_weather (world : World)
    (o : DatabaseManager.read_outcome) (faults : nat → option exn) (now now' : Z)
    (g value city : string) (days_arg : option Z) (b b' : Bot) :
  setup o faults now (Some g) "decimal_places" (Some value) b
  = (Some Settings.Updated, b') →
  py_int value = Some 0 → g ≠ "" → not_cached now' g (weather_cog b') →
  let '(render, b'') :=
    weather world DatabaseManager.ReadCompletes now' (Some g) city days_arg None b' in
  render = None ∧ providers b'' = providers b' ∧
  Weather._city_cache (weather_cog b'') = Weather._city_cache (weather_cog b').
Proof.
  intros Hsetup Hint Hg Hnot.
  destruct (weather_cog_reads_written_document _ _ _ _ _ _ _ _ now' Hsetup Hg Hnot)
    as (cog' & document & Hcog & Hrow & Hread).
  assert (decimal_places document = 0) as Hzero.
  { unfold setup in Hsetup. destruct (settings_cog b) as [cog|]; [|done].
    destruct (Settings.setup o faults now (Some g) "decimal_places" (Some value)
                (objects b) cog) as [[answer h'] cog0] eqn:Hs.
    injection Hsetup as -> <-. simpl in *. injection Hcog as <-.
    destruct (setup_decimal_places_row _ _ _ _ _ _ _ _ _ _ Hs Hint)
      as (document' & Hrow' & Hdp & _).
    rewrite Hrow in Hrow'. by injection Hrow' as ->. }
  unfold weather.
  destruct (Weather.get_guild_settings DatabaseManager.ReadCompletes now' (Some g)
              (objects b') (settings_cog b') (weather_cog b'))
    as [[[r h1] cog1] w1] eqn:Hget.
  rewrite Hread. simpl. rewrite Hzero. rewrite decide_False by lia. simpl.
  split_and!; [done..|].
  revert Hget. unfold Weather.get_guild_settings. rewrite decide_False by done.
  rewrite Hcog. unfold not_cached in Hnot.
  destruct (Settings.get_server_settings DatabaseManager.ReadCompletes now' g
              (objects b') cog') as [[r' h''] cog''].
  destruct (Weather._settings_cache (weather_cog b') !! g) as [[r0 ts]|].
  - rewrite decide_False by done. by intros [= <- <- <- <-].
  - by intros [= <- <- <- <-].
Qed.

Lemma zero_decimal_places_blocks_weather_witness :
  let '(answer, b') :=
    setup DatabaseManager.ReadCompletes (λ _, None) 10 (Some "G1")
      "decimal_places" (Some "0") (start ∅) in
  let '(render, b'') :=
    weather always_up DatabaseManager.ReadCompletes 20 (Some "G1") "London"
      None None b' in
  answer = Some Settings.Updated ∧ render = None ∧
  geocoding_requests (providers b'') = [].
Proof.
  pose proof (zero_decimal_places_blocks_weather always_up
                DatabaseManager.ReadCompletes (λ _, None) 10 20 "G1" "0" "London"
                None (start ∅) _ eq_refl eq_refl) as Hblock.
  vm_compute in Hblock. vm_compute.
  destruct (Hblock ltac:(discriminate) I) as (Hr & Hp & _).
  split_and!; [reflexivity | exact Hr | reflexivity].
Defined.

(** X11: a successful [/reset] writes the defaults with fresh stamps and
    clears the memo of the store, but touches no dictionary and neither
    cog's cache: while the entry of the settings cog for the server is
    younger than 300 s, reads through the cog still return the dictionary
    cached before the reset. *)
Theorem reset_leaves_cog_caches (faults : nat → option exn) (now : Z)
    (g : string) (b b' : Bot) :
  reset faults now (Some g) b = (Some Settings.Updated, b') →
  ∃ cog cog',
    settings_cog b = Some cog ∧ settings_cog b' = Some cog' ∧
    DatabaseManager.table (Settings.db cog') !! g
    = Some (DatabaseManager.mkRow DEFAULT_SETTINGS now now) ∧
    DatabaseManager.memo (Settings.db cog') = [] ∧
    Settings._settings_cache cog' = Settings._settings_cache cog ∧
    weather_cog b' = weather_cog b ∧ objects b' = objects b ∧
    ∀ r ts o' now',
      Settings._settings_cache cog !! g = Some (r, ts) → now' - ts < 300 →
      Settings.get_server_settings o' now' g (objects b') cog'
      = (r, objects b', cog').
Proof.
  unfold reset. destruct (settings_cog b) as [cog|]; [|done].
  unfold Settings.reset.
  destruct (DatabaseManager.set_server_settings faults now g DEFAULT_SETTINGS
              (Settings.db cog)) as [success db'] eqn:Hset.
  destruct success as [[|]|]; try done. intros [= <-]. simpl.
  eexists _, _. split_and!; try done.
  - exact (set_loop_true_row _ _ _ _ _ _ _ Hset).
  - exact (set_loop_true_memo _ _ _ _ _ _ _ Hset).
  - intros r ts o' now' Hc Hage. unfold Settings.get_server_settings. simpl.
    rewrite Hc. by rewrite decide_True.
Qed.

Lemma reset_leaves_cog_caches_witness :
  let b := (weather always_up DatabaseManager.ReadCompletes 0 (Some "G1")
              "London" None None (start ∅)).2 in
  (reset (λ _, None) 30 (Some "G1") b).1 = Some Settings.Updated ∧
  weather_cog (reset (λ _, None) 30 (Some "G1") b).2 = weather_cog b ∧
  objects (reset (λ _, None) 30 (Some "G1") b).2 = objects b.
Proof.
  intros b.
  destruct (reset_leaves_cog_caches (λ _, None) 30 "G1" b
              (reset (λ _, None) 30 (Some "G1") b).2 eq_refl)
    as (cog & cog' & _ & _ & _ & _ & _ & Hw & Hobj & _).
  split_and!; [reflexivity | exact Hw | exact Hobj].
Defined.

(** X12: after any read through the settings cog, the cog holds an entry
    for the server that is younger than 300 s, and every later read at an
    age below 300 s returns the identical dictionary without touching the
    store, the heap or the cache; the same holds for the weather cog's own
    settings cache when the settings cog is loaded and the server id is
    not empty. *)
Theorem settings_reads_within_ttl_hit_the_cache (o : DatabaseManager.read_outcome)
    (now : Z) (g : string) (h : heap) (c : Settings.t) (w : Weather.t) :
  (let '(r, h1, c1) := Settings.get_server_settings o now g h c in
   ∃ ts, Settings._settings_cache c1 !! g = Some (r, ts) ∧ now - ts < 300 ∧
     ∀ o' now', now' - ts < 300 →
       Settings.get_server_settings o' now' g h1 c1 = (r, h1, c1)) ∧
  (g ≠ "" →
   let '(r, h1, cog1, w1) :=
     Weather.get_guild_settings o now (Some g) h (Some c) w in
   ∃ ts, Weather._settings_cache w1 !! g = Some (r, ts) ∧ now - ts < 300 ∧
     ∀ o' now', now' - ts < 300 →
       Weather.get_guild_settings o' now' (Some g) h1 cog1 w1 = (r, h1, cog1, w1)).
Proof.
  split.
  - unfold Settings.get_server_settings.
    destruct (Settings._settings_cache c !! g) as [[r0 ts]|] eqn:Hc.
    + case_decide as Hage.
      * exists ts. split_and!; [done..|]. intros o' now' Hage'.
        rewrite Hc. by rewrite decide_True.
      * destruct (DatabaseManager.get_server_settings o now g h (Settings.db c))
          as [[r h1] db1]. exists now. simpl. rewrite lookup_insert_eq.
        split_and!; [done|lia|]. intros o' now' Hage'. by rewrite decide_True.
    + destruct (DatabaseManager.get_server_settings o now g h (Settings.db c))
        as [[r h1] db1]. exists now. simpl. rewrite lookup_insert_eq.
      split_and!; [done|lia|]. intros o' now' Hage'. by rewrite decide_True.
  - intros Hg. unfold Weather.get_guild_settings. rewrite decide_False by done.
    destruct (Weather._settings_cache w !! g) as [[r0 ts]|] eqn:Hc.
    + case_decide as Hage.
      * exists ts. split_and!; [done..|]. intros o' now' Hage'.
        rewrite decide_False by done. rewrite Hc. by rewrite decide_True.
      * destruct (Settings.get_server_settings o now g h c) as [[r h1] c1].
        exists now. simpl. rewrite lookup_insert_eq.
        split_and!; [done|lia|]. intros o' now' Hage'.
        rewrite decide_False by done. by rewrite decide_True.
    + destruct (Settings.get_server_settings o now g h c) as [[r h1] c1].
      exists now. simpl. rewrite lookup_insert_eq.
      split_and!; [done|lia|]. intros o' now' Hage'.
      rewrite decide_False by done. by rewrite decide_True.
Qed.

(** X13: the city cache of the weather cog is keyed by the lower-cased
    name: once a lookup has returned a place, every lookup of a name that
    differs at most in case, at an age of the entry below 300 s, returns
    the same place and neither sends a request nor changes any cache,
    whatever the service would answer. *)
Theorem city_lookup_ignores_case (world : World) (now : Z) (city : string)
    (w : Weather.t) (p : Providers) :
  let '(res, w1, p1) := Weather.get_cached_city_info world now city w p in
  ∀ data, res = Some data →
    ∃ ts, Weather._city_cache w1 !! lower city = Some (data, ts) ∧ now - ts < 300 ∧
      ∀ world' now' city', lower city' = lower city → now' - ts < 300 →
        Weather.get_cached_city_info world' now' city' w1 p1 = (Some data, w1, p1).
Proof.
  assert (Hhit : ∀ w1 p1 data ts,
    Weather._city_cache w1 !! lower city = Some (data, ts) →
    ∀ world' now' city', lower city' = lower city → now' - ts < 300 →
      Weather.get_cached_city_info world' now' city' w1 p1 = (Some data, w1, p1)).
  { intros w1 p1 data ts Hc world' now' city' Hlow Hage.
    unfold Weather.get_cached_city_info. rewrite Hlow, Hc.
    unfold Weather._cache_ttl. by rewrite decide_True. }
  unfold Weather.get_cached_city_info at 1.
  destruct (Weather._city_cache w !! lower city) as [[data0 ts]|] eqn:Hc.
  - unfold Weather._cache_ttl. case_decide as Hage.
    + intros data [= <-]. exists ts. split_and!; [done..|]. by apply Hhit.
    + destruct (getcods world city p) as [[data'|] p1]; [|done].
      intros data [= <-]. exists now. simpl. rewrite lookup_insert_eq.
      split_and!; [done|lia|]. apply Hhit. simpl. by rewrite lookup_insert_eq.
  - destruct (getcods world city p) as [[data'|] p1]; [|done].
    intros data [= <-]. exists now. simpl. rewrite lookup_insert_eq.
    split_and!; [done|lia|]. apply Hhit. simpl. by rewrite lookup_insert_eq.
Qed.

Lemma city_lookup_ignores_case_witness :
  let '(res, w1, p1) :=
    Weather.get_cached_city_info always_up 0 "London" Weather.new no_requests in
  res = Some (mkGeo "London" 0 0) ∧
  Weather.get_cached_city_info recovering 299 "LONDON" w1 p1
  = (Some (mkGeo "London" 0 0), w1, p1).
Proof.
  pose proof (city_lookup_ignores_case always_up 0 "London" Weather.new no_requests)
    as Hcase.
  destruct (Weather.get_cached_city_info always_up 0 "London" Weather.new no_requests)
    as [[res w1] p1] eqn:Hget.
  assert (res = Some (mkGeo "London" 0 0)) as Hres.
  { revert Hget. vm_compute. by intros [= <- _ _]. }
  split; [exact Hres|].
  destruct (Hcase _ Hres) as (ts & Hc & Hage & Hhit).
  assert (ts = 0) as ->.
  { revert Hget Hc. vm_compute. intros [= _ <- _]. vm_compute. by intros [= <-]. }
  apply Hhit; [reflexivity | lia].
Defined.

End commands_further.

(** ** Weather codes *)

Local Ltac in_table :=
  repeat first [apply list_elem_of_here | apply list_elem_of_further].

(** X14: every weather code from 0 to 99 lies in exactly one range of the
    table, so it gets the emoji of that range whatever the order of the
    table; every other code gets the question mark. *)
Theorem weather_codes_are_partitioned (weather_code : Z) :
  (∀ start stop emoji,
     (start, stop, emoji) ∈ WEATHER_CODE_RANGES → start ≤ weather_code < stop →
     get_weather_emoji weather_code = emoji) ∧
  (0 ≤ weather_code < 100 →
   ∃ start stop emoji,
     (start, stop, emoji) ∈ WEATHER_CODE_RANGES ∧ start ≤ weather_code < stop) ∧
  (¬ 0 ≤ weather_code < 100 → get_weather_emoji weather_code = "❓"%string).
Proof.
  split_and!.
  - intros start stop emoji Hin Hrange. unfold WEATHER_CODE_RANGES in Hin.
    repeat (apply elem_of_cons in Hin as [[= -> -> ->]|Hin];
            [unfold get_weather_emoji, WEATHER_CODE_RANGES; simpl;
             repeat (case_decide; [first [done | lia]|]); lia|]).
    by apply elem_of_nil in Hin.
  - intros Hrange. unfold WEATHER_CODE_RANGES.
    destruct (decide (weather_code < 1)); [exists 0, 1, "☀️"%string; split; [in_table|lia]|].
    destruct (decide (weather_code < 4)); [exists 1, 4, "🌤️"%string; split; [in_table|lia]|].
    destruct (decide (weather_code < 10)); [exists 4, 10, "☁️"%string; split; [in_table|lia]|].
    destruct (decide (weather_code < 20)); [exists 10, 20, "🌫️"%string; split; [in_table|lia]|].
    destruct (decide (weather_code < 30)); [exists 20, 30, "🌧️"%string; split; [in_table|lia]|].
    destruct (decide (weather_code < 40)); [exists 30, 40, "🌧️"%string; split; [in_table|lia]|].
    destruct (decide (weather_code < 50)); [exists 40, 50, "🌧️"%string; split; [in_table|lia]|].
    destruct (decide (weather_code < 60)); [exists 50, 60, "❄️"%string; split; [in_table|lia]|].
    destruct (decide (weather_code < 70)); [exists 60, 70, "🌨️"%string; split; [in_table|lia]|].
    destruct (decide (weather_code < 80)); [exists 70, 80, "🌨️"%string; split; [in_table|lia]|].
    destruct (decide (weather_code < 90)); [exists 80, 90, "🌦️"%string; split; [in_table|lia]|].
    exists 90, 100, "⛈️"%string; split; [in_table|lia].
  - intros Hout. unfold get_weather_emoji, WEATHER_CODE_RANGES. simpl.
    repeat (case_decide; [lia|]). done.
Qed.

(** ** The presence task *)

Section presence_further.
Import Presence.

Lemma list_remove_length x l : x ∈ l → S (length (list_remove x l)) = length l.
Proof.
  intros Hin. apply list_remove_Permutation in Hin.
  apply Permutation_length in Hin. simpl in Hin. lia.
Qed.

Lemma rotate_pool_shrinks cities choice last available :
  available ≠ [] →
  S (length (rotate cities choice last available).2) = length available.
Proof.
  intros Hne. unfold rotate, refill. destruct available as [|a l]; [done|].
  assert (is_Some ((a :: l) !! (choice mod length (a :: l))%nat)) as [city Hcity].
  { apply lookup_lt_is_Some. apply Nat.mod_upper_bound. simpl; lia. }
  rewrite Hcity. cbn [snd]. apply list_remove_length.
  by eapply list_elem_of_lookup_2.
Qed.

(** X15: the rotation does not depend on the lookups: from equal pools and
    histories, the same draw leaves equal pools and histories whatever the
    services answer, whatever the caches hold and whatever the clock says;
    and a tick on a non-empty pool always takes exactly one city out of
    the pool, also when its lookups fail and nothing is published. *)
Theorem rotation_ignores_lookups (world world' : World) (cities : list string)
    (now now' : Z) (choice : nat) (s s' : t) (p p' : Providers) :
  _last_cities s' = _last_cities s →
  _available_cities s' = _available_cities s →
  let '(out, t1, _) := _get_city_weather world cities now choice s p in
  let '(out', t2, _) := _get_city_weather world' cities now' choice s' p' in
  _last_cities t2 = _last_cities t1 ∧
  _available_cities t2 = _available_cities t1 ∧
  (_available_cities s ≠ [] →
   S (length (_available_cities t1)) = length (_available_cities s)).
Proof.
  intros Hlast Havail.
  pose proof (get_city_weather_rotates cities world now choice s p) as H1.
  pose proof (get_city_weather_rotates cities world' now' choice s' p') as H2.
  rewrite Hlast, Havail in H2.
  destruct (_get_city_weather world cities now choice s p) as [[out t1] p1].
  destruct (_get_city_weather world' cities now' choice s' p') as [[out' t2] p2].
  pose proof (rotate_pool_shrinks cities choice (_last_cities s)
                (_available_cities s)) as Hpool.
  destruct (rotate cities choice (_last_cities s) (_available_cities s))
    as [[picked last] available].
  destruct H1 as (-> & -> & _). destruct H2 as (-> & -> & _). done.
Qed.

Lemma rotation_ignores_lookups_witness :
  let s := Presence.new CITIES in
  let '(out, t1, _) := _get_city_weather always_up CITIES 0 3 s no_requests in
  let '(out', t2, _) := _get_city_weather recovering CITIES 900 3 s no_requests in
  succeeded out = true ∧ succeeded out' = false ∧
  _available_cities t2 = _available_cities t1 ∧
  length (_available_cities t1) = 16%nat.
Proof.
  intros s.
  pose proof (rotation_ignores_lookups always_up recovering CITIES 0 900 3 s s
                no_requests no_requests eq_refl eq_refl) as Hrot.
  destruct (_get_city_weather always_up CITIES 0 3 s no_requests)
    as [[out t1] p1] eqn:H1.
  destruct (_get_city_weather recovering CITIES 900 3 s no_requests)
    as [[out' t2] p2] eqn:H2.
  destruct Hrot as (_ & Hav & Hlen).
  assert (S (length (_available_cities t1)) = 17%nat) as Hl by (by apply Hlen).
  split_and!; [| |exact Hav|lia].
  - revert H1. vm_compute. by intros [= <- _ _].
  - revert H2. vm_compute. by intros [= <- _ _].
Defined.

Lemma lru_find_keys {V} (k : string) (l : list (string * V)) :
  is_Some (lru_find k l) ↔ k ∈ l.*1.
Proof.
  induction l as [|[k' v] l IH]; simpl.
  - split; [by intros [? ?] | by intros ?%elem_of_nil].
  - case_decide as Heq.
    + subst. split; [intros _; left | by eexists].
    + rewrite IH. split; [by right|].
      intros Hin. apply elem_of_cons in Hin as [->|Hin]; done.
Qed.

Lemma lru_remove_keys {V} (k : string) (l : list (string * V)) :
  k ∈ l.*1 → l.*1 ≡ₚ k :: (lru_remove k l).*1.
Proof.
  induction l as [|[k' v] l IH]; simpl; [by intros ?%elem_of_nil|].
  case_decide as Heq; [by subst|]. intros Hin.
  apply elem_of_cons in Hin as [->|Hin]; [done|].
  simpl. rewrite (IH Hin) at 1. apply Permutation_swap.
Qed.

Lemma getweather_keeps_geocoding world lat lon days p :
  getcods_memo (getweather world lat lon days p).2 = getcods_memo p ∧
  geocoding_requests (getweather world lat lon days p).2 = geocoding_requests p.
Proof. unfold getweather. by destruct (lru_find _ _). Qed.

Lemma rotate_within_cities cities choice last available :
  available ⊆ cities →
  (rotate cities choice last available).2 ⊆ cities ∧
  ∀ city, (rotate cities choice last available).1.1 = Some city → city ∈ cities.
Proof.
  intros Hsub. unfold rotate.
  assert (Hre : (refill cities last available).2 ⊆ cities).
  { unfold refill. destruct available as [|a l]; [|done].
    destruct (filter (λ c, c ∉ last) cities) as [|c l] eqn:Hf; [done|].
    simpl. rewrite <- Hf. intros x Hx. by apply list_elem_of_filter in Hx as [_ Hx]. }
  destruct (refill cities last available) as [last1 available1]. simpl in Hre.
  destruct (available1 !! (choice mod length available1)%nat) as [city|] eqn:Hcity;
    simpl.
  - split.
    + intros x Hx. by apply Hre, (list_remove_subseteq city).
    + intros c [= <-]. apply Hre. by eapply list_elem_of_lookup_2.
  - by split.
Qed.

Lemma getcods_geocoded_once world cities city p :
  (length cities ≤ 1000)%nat → city ∈ cities →
  geocoded_once cities p → geocoded_once cities (getcods world city p).2.
Proof.
  intros Hlen Hcity (Hnd & Hreq & Hkeys & Hsub). unfold getcods.
  destruct (lru_find city (getcods_memo p)) as [res|] eqn:Hfind; simpl.
  - assert (city ∈ (getcods_memo p).*1) as Hin by (apply lru_find_keys; by eexists).
    pose proof (lru_remove_keys city _ Hin) as Hperm.
    unfold geocoded_once, lru_hit. simpl. split_and!.
    + done.
    + intros c Hc. rewrite <- Hperm. auto.
    + by rewrite <- Hperm.
    + intros c Hc. rewrite <- Hperm in Hc. auto.
  - assert (city ∉ (getcods_memo p).*1) as Hnot.
    { intros Hin. apply lru_find_keys in Hin as [? Hin]. congruence. }
    unfold lru_store. rewrite take_ge.
    2:{ simpl. assert ((city :: (getcods_memo p).*1) ⊆+ cities) as Hsm.
        { apply NoDup_submseteq; [by apply NoDup_cons|].
          intros x Hx. apply elem_of_cons in Hx as [->|Hx]; auto. }
        apply submseteq_length in Hsm. simpl in Hsm.
        rewrite length_fmap in Hsm. lia. }
    unfold geocoded_once. simpl. split_and!.
    + apply NoDup_cons. split; [|done]. intros Hin. by apply Hnot, Hreq.
    + intros c Hc. apply elem_of_cons in Hc as [->|Hc]; [left | right; auto].
    + by apply NoDup_cons.
    + intros c Hc. apply elem_of_cons in Hc as [->|Hc]; auto.
Qed.

Lemma get_city_weather_geocoded_once world cities now choice s p :
  (length cities ≤ 1000)%nat → _available_cities s ⊆ cities →
  geocoded_once cities p →
  let '(_, s', p') := _get_city_weather world cities now choice s p in
  _available_cities s' ⊆ cities ∧ geocoded_once cities p'.
Proof.
  intros Hlen Hsub Hp. unfold _get_city_weather.
  pose proof (rotate_within_cities cities choice (_last_cities s) _ Hsub) as [Hav Hpick].
  destruct (rotate cities choice (_last_cities s) (_available_cities s))
    as [[picked last] available]. simpl in Hav, Hpick.
  assert (Hw : ∀ lat lon p0, geocoded_once cities p0 →
            geocoded_once cities (getweather world lat lon 1 p0).2).
  { intros lat lon p0 Hp0. unfold geocoded_once.
    by destruct (getweather_keeps_geocoding world lat lon 1 p0) as [-> ->]. }
  destruct picked as [city|]; [|done].
  destruct (_ !! city) as [info|].
  - pose proof (Hw (lat info) (lon info) p Hp) as Hp'.
    destruct (getweather world (lat info) (lon info) 1 p) as [weather p']. done.
  - pose proof (getcods_geocoded_once world cities city p Hlen (Hpick _ eq_refl) Hp)
      as Hp1.
    destruct (getcods world city p) as [[info|] p1]; [|done]. simpl in Hp1.
    pose proof (Hw (lat info) (lon info) p1 Hp1) as Hp2.
    destruct (getweather world (lat info) (lon info) 1 p1) as [weather p2]. done.
Qed.

(** X16: while only the presence task looks cities up, and the list has at
    most 1000 cities, no city is ever sent to the geocoding service twice,
    however long the task runs and whatever the service answers (the
    memo of [getcods] answers every later lookup, also after the 24 hours
    of the task's own cache have passed), and only cities of the list are
    sent. *)
Theorem presence_geocodes_each_city_once (world : World) (cities : list string)
    (ticks : list (Z * nat)) :
  (length cities ≤ 1000)%nat →
  let '(_, p) := presence_end world cities ticks (Presence.new cities) no_requests in
  NoDup (geocoding_requests p) ∧
  ∀ c, c ∈ geocoding_requests p → c ∈ cities.
Proof.
  intros Hlen.
  assert (Hgen : ∀ s p, _available_cities s ⊆ cities → geocoded_once cities p →
            geocoded_once cities (presence_end world cities ticks s p).2).
  { induction ticks as [|[now choice] rest IH]; intros s p Hs Hp; [done|]. simpl.
    pose proof (get_city_weather_geocoded_once world cities now choice s p Hlen Hs Hp)
      as Hstep.
    destruct (_get_city_weather world cities now choice s p) as [[out s'] p'].
    destruct Hstep as [Hs' Hp']. by apply IH. }
  specialize (Hgen (Presence.new cities) no_requests).
  destruct (presence_end world cities ticks (Presence.new cities) no_requests)
    as [s p]. simpl in Hgen.
  destruct Hgen as (Hnd & Hreq & _ & Hsub).
  - done.
  - split_and!; simpl; [constructor | by intros ? ?%elem_of_nil | constructor
                        | by intros ? ?%elem_of_nil].
  - split; [done|]. auto.
Qed.

Lemma presence_geocodes_each_city_once_witness :
  let ticks := (λ i, (100000 * Z.of_nat i, 0%nat)) <$> seq 0 40 in
  let '(_, p) := presence_end changing CITIES ticks (Presence.new CITIES) no_requests in
  NoDup (geocoding_requests p) ∧ length (geocoding_requests p) = 17%nat.
Proof.
  intros ticks.
  pose proof (presence_geocodes_each_city_once changing CITIES ticks) as Honce.
  destruct (presence_end changing CITIES ticks (Presence.new CITIES) no_requests)
    as [s p] eqn:Hend.
  split; [apply Honce; simpl; lia|].
  revert Hend. vm_compute. by intros [= _ <-].
Defined.

End presence_further.

(** ** Requests of the weather command *)

(** X17: one [/weather] command sends at most one request to each
    service: the geocoding log grows by nothing or by the city as typed,
    the weather log by nothing or by one request whose number of forecast
    days is between 1 and 5. *)
Theorem weather_sends_at_most_one_request_each (world : World)
    (o : DatabaseManager.read_outcome) (now : Z) (guild : option string)
    (city : string) (days_arg rnd_arg : option Z) (b : Bot) :
  let '(render, b') := weather world o now guild city days_arg rnd_arg b in
  (geocoding_requests (providers b') = geocoding_requests (providers b) ∨
   geocoding_requests (providers b') = city :: geocoding_requests (providers b)) ∧
  (weather_requests (providers b') = weather_requests (providers b) ∨
   ∃ lat lon days, 1 ≤ days ≤ 5 ∧
     weather_requests (providers b')
     = (lat, lon, days) :: weather_requests (providers b)).
Proof.
  unfold weather.
  destruct (Weather.get_guild_settings o now guild (objects b) (settings_cog b)
              (weather_cog b)) as [[[settings h1] cog1] w1].
  destruct (deref h1 settings) as [document|]; [|by split; left].
  case_decide as Hrange; [|by split; left].
  assert (Hgeo : let '(info, w2, p2) :=
            Weather.get_cached_city_info world now city w1 (providers b) in
            (geocoding_requests p2 = geocoding_requests (providers b) ∨
             geocoding_requests p2 = city :: geocoding_requests (providers b)) ∧
            weather_requests p2 = weather_requests (providers b)).
  { unfold Weather.get_cached_city_info, getcods.
    destruct (Weather._city_cache w1 !! lower city) as [[data ts]|];
      [case_decide; [by split; [left|]|]|];
      destruct (lru_find city (getcods_memo (providers b))) as [[data'|]|];
      simpl; try (by split; [left|]);
      destruct (geocoding_api world _ city); simpl; by split; [right|]. }
  destruct (Weather.get_cached_city_info world now city w1 (providers b))
    as [[[info|] w2] p2]; destruct Hgeo as [Hgeo Hkeep]; [|by split; [|left]].
  set (days := default (forecast_days document) days_arg) in *.
  assert (Hwx : let '(data, w3, p3) :=
            Weather.get_cached_weather world now (lat info, lon info, days) info days
              w2 p2 in
            geocoding_requests p3 = geocoding_requests p2 ∧
            (weather_requests p3 = weather_requests p2 ∨
             weather_requests p3 = (lat info, lon info, days) :: weather_requests p2)).
  { unfold Weather.get_cached_weather, getweather.
    destruct (Weather._weather_cache w2 !! (lat info, lon info, days)) as [[data ts]|];
      [case_decide; [by split; [|left]|]|];
      destruct (lru_find (lat info, lon info, days) (getweather_memo p2)) as [[data'|]|];
      simpl; try (by split; [|left]);
      destruct (weather_api world _ _); simpl; by split; [|right]. }
  destruct (Weather.get_cached_weather world now (lat info, lon info, days) info days
              w2 p2) as [[data w3] p3].
  destruct Hwx as [Hgeo' Hwx]. rewrite <- Hkeep.
  assert (geocoding_requests p3 = geocoding_requests (providers b) ∨
          geocoding_requests p3 = city :: geocoding_requests (providers b)) as Hg
    by (by rewrite Hgeo').
  assert (weather_requests p3 = weather_requests p2 ∨
          ∃ lat lon days0, 1 ≤ days0 ≤ 5 ∧
            weather_requests p3 = (lat, lon, days0) :: weather_requests p2) as Hw.
  { destruct Hwx as [Hwx|Hwx]; [by left|]. right.
    exists (lat info), (lon info), days. split; [lia | done]. }
  by destruct data.
Qed.
